(** * SpiceFlowFinance: the lease-term extractor of [src/document_extractor.py]

    A shallow embedding of [extract_lease_data_from_text] and of the parts of
    Python it runs on: the string methods it calls, the backtracking matcher
    of the [re] module for the pattern syntax the file uses, [int] and
    [float] on the captured literals, and binary64 arithmetic (through the
    executable specification [SpecFloat] of the Standard Library).

    Conventions.  A Python [str] is a Rocq [string] of 7-bit characters.
    [None] is [option]'s [None].  An exception that leaves a call is a
    [Raise]; a [try]/[except ValueError] is written out where the source has
    one.  [int] is unbounded (no limit on the digits of a literal). *)

From Stdlib Require Import List String Ascii Bool ZArith NArith Arith Lia.
From Stdlib Require Import Floats.SpecFloat.
Import ListNotations.

Local Open Scope string_scope.
Local Open Scope Z_scope.

(** ** Python strings *)

Module PyStr.

Definition code (c : ascii) : N := N_of_ascii c.

Definition between (lo hi : N) (c : ascii) : bool :=
  ((lo <=? code c) && (code c <=? hi))%N.

Definition is_digit : ascii -> bool := between 48 57.
Definition is_upper : ascii -> bool := between 65 90.
Definition is_lower : ascii -> bool := between 97 122.
Definition is_cased (c : ascii) : bool := is_upper c || is_lower c.

(** [str.isspace] on one character: TAB..CR, FS..US and the blank. *)
Definition is_space (c : ascii) : bool :=
  between 9 13 c || between 28 32 c.

Definition to_lower (c : ascii) : ascii :=
  if is_upper c then ascii_of_N (code c + 32) else c.

Definition to_upper (c : ascii) : ascii :=
  if is_lower c then ascii_of_N (code c - 32) else c.

Fixpoint map_chars (f : ascii -> ascii) (s : string) : string :=
  match s with
  | EmptyString => EmptyString
  | String c t => String (f c) (map_chars f t)
  end.

Fixpoint all_chars (p : ascii -> bool) (s : string) : bool :=
  match s with
  | EmptyString => true
  | String c t => p c && all_chars p t
  end.

(** [s.lower()] *)
Definition lower : string -> string := map_chars to_lower.

(** [s.isdigit()]: every character a digit, and at least one. *)
Definition isdigit (s : string) : bool :=
  match s with
  | EmptyString => false
  | _ => all_chars is_digit s
  end.

(** [s.title()]: a cased character is upper-cased when the character
    before it is not cased, lower-cased otherwise. *)
Fixpoint title_from (prev_cased : bool) (s : string) : string :=
  match s with
  | EmptyString => EmptyString
  | String c t =>
      String (if prev_cased then to_lower c else to_upper c)
             (title_from (is_cased c) t)
  end.

Definition title : string -> string := title_from false.

(** [s.replace(old, new)], left to right over non-overlapping occurrences;
    [skip] counts the characters of an occurrence still to be passed.
    ([old] is never empty in the source.) *)
Fixpoint replace_from (old new : string) (skip : nat) (s : string) : string :=
  match s with
  | EmptyString => EmptyString
  | String c t =>
      match skip with
      | S k => replace_from old new k t
      | O =>
          if prefix old s
          then new ++ replace_from old new (String.length old - 1) t
          else String c (replace_from old new 0 t)
      end
  end.

Definition replace (old new s : string) : string := replace_from old new 0 s.

Fixpoint lstrip (s : string) : string :=
  match s with
  | String c t => if is_space c then lstrip t else s
  | EmptyString => EmptyString
  end.

Fixpoint rstrip (s : string) : string :=
  match s with
  | EmptyString => EmptyString
  | String c t =>
      match rstrip t with
      | EmptyString => if is_space c then EmptyString else String c EmptyString
      | t' => String c t'
      end
  end.

(** [s.strip()] *)
Definition strip (s : string) : string := rstrip (lstrip s).

(** [sep.join(parts)] *)
Definition join (sep : string) (parts : list string) : string :=
  String.concat sep parts.

Definition newline : ascii := ascii_of_N 10.

End PyStr.

(** ** The [re] module: pattern syntax, compilation, backtracking search *)

Module Re.

Import PyStr.

Inductive cset_item : Type :=
| CChar (c : ascii)
| CRange (lo hi : ascii)
| CSpace.

Inductive regex : Type :=
| REps
| RFail
| RChar (c : ascii)
| RAny
| RSet (items : list cset_item)
| RCat (r1 r2 : regex)
| RAlt (r1 r2 : regex)
| RStar (greedy : bool) (r : regex)
| RPlus (greedy : bool) (r : regex)
| ROpt (greedy : bool) (r : regex)
| RGroup (i : nat) (r : regex).

Definition item_matches (c : ascii) (it : cset_item) : bool :=
  match it with
  | CChar d => Ascii.eqb c d
  | CRange lo hi => between (code lo) (code hi) c
  | CSpace => is_space c
  end.

Definition set_matches (items : list cset_item) (c : ascii) : bool :=
  existsb (item_matches c) items.

(** *** Parsing a pattern

    Alternation, concatenation, the quantifiers [*], [+], [?] and their
    lazy forms, capturing and [(?:...)] groups, bracketed sets with ranges
    and [\s], the dot, and backslash escapes of punctuation.  Groups are
    numbered by their opening parenthesis. *)

Definition is_alnum (c : ascii) : bool := is_digit c || is_cased c.

(** The items of a set, up to its closing bracket. *)
Fixpoint parse_set (fuel : nat) (s : string) (acc : list cset_item)
  : option (list cset_item * string) :=
  match fuel with
  | O => None
  | S f =>
      match s with
      | EmptyString => None
      | String "]" t => Some (rev acc, t)
      | String "\" (String c t) =>
          if Ascii.eqb c "s" then parse_set f t (CSpace :: acc)
          else if is_alnum c then None
          else parse_set f t (CChar c :: acc)
      | String lo (String "-" (String hi t)) =>
          if Ascii.eqb hi "]" then parse_set f (String "-" (String hi t)) (CChar lo :: acc)
          else parse_set f t (CRange lo hi :: acc)
      | String c t => parse_set f t (CChar c :: acc)
      end
  end.

(** A quantifier after the atom [a], if there is one. *)
Definition parse_quant (a : regex) (s : string) : regex * string :=
  match s with
  | String "*" (String "?" t) => (RStar false a, t)
  | String "*" t => (RStar true a, t)
  | String "+" (String "?" t) => (RPlus false a, t)
  | String "+" t => (RPlus true a, t)
  | String "?" (String "?" t) => (ROpt false a, t)
  | String "?" t => (ROpt true a, t)
  | _ => (a, s)
  end.

Fixpoint parse_alt (fuel : nat) (s : string) (gi : nat) {struct fuel}
  : option (regex * string * nat) :=
  match fuel with
  | O => None
  | S f =>
      match parse_seq f s gi with
      | Some (r1, String "|" t, gi1) =>
          match parse_alt f t gi1 with
          | Some (r2, t2, gi2) => Some (RAlt r1 r2, t2, gi2)
          | None => None
          end
      | other => other
      end
  end
with parse_seq (fuel : nat) (s : string) (gi : nat) {struct fuel}
  : option (regex * string * nat) :=
  match fuel with
  | O => None
  | S f =>
      match s with
      | EmptyString => Some (REps, s, gi)
      | String "|" _ => Some (REps, s, gi)
      | String ")" _ => Some (REps, s, gi)
      | _ =>
          match parse_atom f s gi with
          | Some (a, t, gi1) =>
              let (q, t1) := parse_quant a t in
              match parse_seq f t1 gi1 with
              | Some (REps, t2, gi2) => Some (q, t2, gi2)
              | Some (r, t2, gi2) => Some (RCat q r, t2, gi2)
              | None => None
              end
          | None => None
          end
      end
  end
with parse_atom (fuel : nat) (s : string) (gi : nat) {struct fuel}
  : option (regex * string * nat) :=
  match fuel with
  | O => None
  | S f =>
      match s with
      | EmptyString => None
      | String "(" (String "?" (String ":" t)) =>
          match parse_alt f t gi with
          | Some (r, String ")" t1, gi1) => Some (r, t1, gi1)
          | _ => None
          end
      | String "(" t =>
          match parse_alt f t (S gi) with
          | Some (r, String ")" t1, gi1) => Some (RGroup gi r, t1, gi1)
          | _ => None
          end
      | String "[" t =>
          match parse_set (String.length t) t [] with
          | Some (items, t1) => Some (RSet items, t1, gi)
          | None => None
          end
      | String "\" (String c t) =>
          if Ascii.eqb c "s" then Some (RSet [CSpace], t, gi)
          else if is_alnum c then None
          else Some (RChar c, t, gi)
      | String "." t => Some (RAny, t, gi)
      | String "*" _ | String "+" _ | String "?" _ | String "\" _ => None
      | String c t => Some (RChar c, t, gi)
      end
  end.

(** [re.compile(pattern)]; a pattern outside the syntax above compiles to
    [RFail] (none of the source's patterns does, see [patterns_compile]). *)
Definition parse (p : string) : option regex :=
  match parse_alt (3 * String.length p + 3) p 1 with
  | Some (r, EmptyString, _) => Some r
  | _ => None
  end.

Definition compile (p : string) : regex :=
  match parse p with
  | Some r => r
  | None => RFail
  end.

(** *** Matching

    The matcher is the priority-ordered backtracking search of [re]: it is
    written in continuation-passing style, [k] being what remains to be
    matched after [r]; the first alternative, the longer repetition of a
    greedy quantifier and the shorter one of a lazy quantifier are tried
    first.  A position is the remaining text and its offset. *)

Definition span : Type := (N * N)%type.
Definition captures : Type := list (nat * span).

Section Matcher.

Variable R : Type.

Definition cont : Type := string -> N -> captures -> option R.

(** Repetition of [step]; an iteration that consumes nothing ends the
    repetition, so [fuel], the length of the remaining text, is never
    exhausted early. *)
Fixpoint repeat_from (step : string -> N -> captures -> cont -> option R)
         (greedy : bool) (fuel : nat)
         (s : string) (pos : N) (caps : captures) (k : cont) {struct fuel}
  : option R :=
  match fuel with
  | O => k s pos caps
  | S f =>
      if greedy then
        match step s pos caps
                   (fun s1 p1 c1 =>
                      if (pos <? p1)%N
                      then repeat_from step greedy f s1 p1 c1 k
                      else None) with
        | Some x => Some x
        | None => k s pos caps
        end
      else
        match k s pos caps with
        | Some x => Some x
        | None =>
            step s pos caps
                 (fun s1 p1 c1 =>
                    if (pos <? p1)%N
                    then repeat_from step greedy f s1 p1 c1 k
                    else None)
        end
  end.

Fixpoint rmatch (r : regex) (s : string) (pos : N) (caps : captures)
         (k : cont) {struct r} : option R :=
  match r with
  | REps => k s pos caps
  | RFail => None
  | RChar c =>
      match s with
      | String x t => if Ascii.eqb x c then k t (pos + 1)%N caps else None
      | EmptyString => None
      end
  | RAny =>
      match s with
      | String x t =>
          if Ascii.eqb x newline then None else k t (pos + 1)%N caps
      | EmptyString => None
      end
  | RSet items =>
      match s with
      | String x t =>
          if set_matches items x then k t (pos + 1)%N caps else None
      | EmptyString => None
      end
  | RCat r1 r2 =>
      rmatch r1 s pos caps (fun s1 p1 c1 => rmatch r2 s1 p1 c1 k)
  | RAlt r1 r2 =>
      match rmatch r1 s pos caps k with
      | Some x => Some x
      | None => rmatch r2 s pos caps k
      end
  | RStar g r1 =>
      repeat_from (rmatch r1) g (String.length s) s pos caps k
  | RPlus g r1 =>
      rmatch r1 s pos caps
             (fun s1 p1 c1 =>
                repeat_from (rmatch r1) g (String.length s1) s1 p1 c1 k)
  | ROpt g r1 =>
      if g then
        match rmatch r1 s pos caps k with
        | Some x => Some x
        | None => k s pos caps
        end
      else
        match k s pos caps with
        | Some x => Some x
        | None => rmatch r1 s pos caps k
        end
  | RGroup i r1 =>
      rmatch r1 s pos caps (fun s1 p1 c1 => k s1 p1 ((i, (pos, p1)) :: c1))
  end.

End Matcher.

(** A match object: where the match ends, the text after it, the spans
    of the groups, and the searched text the spans index. *)
Record match_obj : Type := MkMatch {
  m_text : string;
  m_end : N;
  m_rest : string;
  m_caps : captures
}.

Definition match_at (r : regex) (text s : string) (pos : N) : option match_obj :=
  rmatch match_obj r s pos []
         (fun s1 p1 c1 => Some (MkMatch text p1 s1 c1)).

Fixpoint lookup_span (i : nat) (caps : captures) : option span :=
  match caps with
  | [] => None
  | (j, sp) :: rest => if Nat.eqb i j then Some sp else lookup_span i rest
  end.

(** [m.group(i)] *)
Definition group (m : match_obj) (i : nat) : string :=
  match lookup_span i (m_caps m) with
  | Some (a, b) => substring (N.to_nat a) (N.to_nat (b - a)) (m_text m)
  | None => EmptyString
  end.

(** The leftmost match at or after the position of [s]. *)
Fixpoint search_from (r : regex) (text s : string) (pos : N) : option match_obj :=
  match match_at r text s pos with
  | Some m => Some m
  | None =>
      match s with
      | EmptyString => None
      | String _ t => search_from r text t (pos + 1)%N
      end
  end.

(** [re.search(pattern, text)] *)
Definition search (r : regex) (text : string) : option match_obj :=
  search_from r text text 0%N.

(** The successive non-overlapping matches, left to right; [skip] counts
    the characters of the last match still to be passed.  (No pattern used
    with it matches the empty string.) *)
Fixpoint finditer_from (r : regex) (text : string) (skip : N)
         (s : string) (pos : N) : list match_obj :=
  let next (sk : N) :=
    match s with
    | EmptyString => []
    | String _ t => finditer_from r text sk t (pos + 1)%N
    end in
  if (0 <? skip)%N then next (skip - 1)%N
  else
    match match_at r text s pos with
    | Some m => m :: next (m_end m - pos - 1)%N
    | None => next 0%N
    end.

(** [re.finditer(pattern, text)] *)
Definition finditer (r : regex) (text : string) : list match_obj :=
  finditer_from r text 0%N text 0%N.

(** [re.findall(pattern, text)] for a pattern with one group. *)
Definition findall (r : regex) (text : string) : list string :=
  map (fun m => group m 1) (finditer r text).

(** [re.sub(pattern, repl, text)] for a pattern that does not match the
    empty string. *)
Fixpoint sub_from (r : regex) (repl : string) (skip : N)
         (s : string) (pos : N) : string :=
  match s with
  | EmptyString => EmptyString
  | String c t =>
      if (0 <? skip)%N then sub_from r repl (skip - 1)%N t (pos + 1)%N
      else
        match match_at r s s pos with
        | Some m =>
            if (pos <? m_end m)%N
            then repl ++ sub_from r repl (m_end m - pos - 1)%N t (pos + 1)%N
            else String c (sub_from r repl 0%N t (pos + 1)%N)
        | None => String c (sub_from r repl 0%N t (pos + 1)%N)
        end
  end.

Definition sub (r : regex) (repl text : string) : string :=
  sub_from r repl 0%N text 0%N.

End Re.

(** ** Exceptions, [int] and [float] *)

Inductive exn : Type := ValueError | OverflowError.

Inductive result (A : Type) : Type :=
| Ok (a : A)
| Raise (e : exn).

Arguments Ok {A} a.
Arguments Raise {A} e.

Module PyNum.

Import PyStr.

(** A Python [float] is an IEEE 754 binary64 number. *)
Definition float : Type := spec_float.
Definition prec : Z := 53.
Definition emax : Z := 1024.

Definition digit_val (c : ascii) : Z := Z.of_N (code c) - 48.

Fixpoint digits_value (acc : Z) (s : string) : Z :=
  match s with
  | EmptyString => acc
  | String c t => digits_value (10 * acc + digit_val c) t
  end.

(** [int(s)] on a string of the captured kind (no sign, blank or
    underscore): its value when [s] is a non-empty run of digits, and
    [None], for the [ValueError] of [int], otherwise. *)
Definition int_of_str (s : string) : option Z :=
  if isdigit s then Some (digits_value 0 s) else None.

(** The binary64 number nearest to [n / d] (ties to even), [0 <= n],
    [0 < d]: the division of the Standard Library's specification, which
    is exact on integers of any size. *)
Definition round_ratio (n d : Z) : float :=
  match n with
  | Z0 => S754_zero false
  | _ =>
      let '(mz, ez, lz) := SFdiv_core_binary prec emax n 0 d 0 in
      binary_round_aux prec emax false mz ez lz
  end.

(** The text before the first dot, and the text after it if there is one. *)
Fixpoint split_dot (s : string) : string * option string :=
  match s with
  | EmptyString => (EmptyString, None)
  | String c t =>
      if Ascii.eqb c "." then (EmptyString, Some t)
      else let (a, b) := split_dot t in (String c a, b)
  end.

(** [float(s)] on a string of the captured kind (digits and dots only,
    no sign, exponent or blank): the correctly rounded value of the decimal
    literal, and [None], for the [ValueError] of [float], when [s] is not
    one.  A literal too large for binary64 gives infinity. *)
Definition float_of_str (s : string) : option float :=
  match split_dot s with
  | (ip, None) =>
      if isdigit ip then Some (round_ratio (digits_value 0 ip) 1) else None
  | (ip, Some fp) =>
      if all_chars is_digit ip && all_chars is_digit fp
         && negb (Nat.eqb (String.length ip + String.length fp) 0)
      then Some (round_ratio (digits_value 0 (ip ++ fp))
                             (10 ^ Z.of_nat (String.length fp)))
      else None
  end.

Definition float_of_Z (z : Z) : float := binary_normalize prec emax z 0 false.

Definition fmul : float -> float -> float := SFmul prec emax.
Definition fdiv : float -> float -> float := SFdiv prec emax.
Definition fle : float -> float -> bool := SFleb.
Definition flt : float -> float -> bool := SFltb.

(** [bool(x)] for a float: false on a zero only. *)
Definition float_truthy (x : float) : bool :=
  match x with
  | S754_zero _ => false
  | _ => true
  end.

(** [int(x)] for a float: truncation toward zero; [OverflowError] on an
    infinity and [ValueError] on a NaN. *)
Definition int_of_float (x : float) : result Z :=
  match x with
  | S754_zero _ => Ok 0
  | S754_finite s m e =>
      Ok (cond_Zopp s (match e with
                       | Zneg p => Z.shiftr (Zpos m) (Zpos p)
                       | _ => Z.shiftl (Zpos m) e
                       end))
  | S754_infinity _ => Raise OverflowError
  | S754_nan => Raise ValueError
  end.

(** [a / b] on integers, [0 < b]: the correctly rounded quotient. *)
Definition int_truediv (a b : Z) : float :=
  match a with
  | Z0 => S754_zero false
  | Zpos _ => round_ratio a b
  | Zneg _ => SFopp (round_ratio (- a) b)
  end.

(** [z < x] for an integer and a float, compared exactly. *)
Definition int_lt_float (z : Z) (x : float) : bool :=
  match x with
  | S754_nan => false
  | S754_infinity s => negb s
  | S754_zero _ => z <? 0
  | S754_finite s m e =>
      match e with
      | Zneg p => Z.shiftl z (Zpos p) <? cond_Zopp s (Zpos m)
      | _ => z <? cond_Zopp s (Z.shiftl (Zpos m) e)
      end
  end.

(** [max] and [min] over a sequence with first element [x]: the first of
    the largest (smallest) elements. *)
Fixpoint max_float (x : float) (xs : list float) : float :=
  match xs with
  | [] => x
  | y :: ys => if flt x y then max_float y ys else max_float x ys
  end.

Fixpoint max_int (x : Z) (xs : list Z) : Z :=
  match xs with
  | [] => x
  | y :: ys => if x <? y then max_int y ys else max_int x ys
  end.

Fixpoint min_int (x : Z) (xs : list Z) : Z :=
  match xs with
  | [] => x
  | y :: ys => if y <? x then min_int y ys else min_int x ys
  end.

Definition zero : float := S754_zero false.
Definition half : float := Eval vm_compute in round_ratio 1 2.
Definition five : float := Eval vm_compute in float_of_Z 5.
Definition hundred : float := Eval vm_compute in float_of_Z 100.

End PyNum.

(** ** The extractor *)

Import PyStr Re PyNum.

(** The dictionary [lease_data] as it is returned; [needs_review] is the
    key added after the term is resolved. *)
Record lease_data : Type := MkLease {
  name : string;
  annual_rent : option Z;
  term_years : option Z;
  escalator : float;
  risk_tier : string;
  location : option string;
  acres : option float;
  developer : option string;
  landowners : option string;
  needs_review : bool
}.

(** [filename.replace('.pdf', '').replace('.docx', '').replace('_', ' ').title()] *)
Definition base_name (filename : string) : string :=
  title (replace "_" " " (replace ".docx" "" (replace ".pdf" "" filename))).

(** [re.sub(r'\s+', ' ', text.replace('\n', ' ')).lower()] *)
Definition clean_text (text : string) : string :=
  lower (sub (compile "\s+") " " (replace (String newline "") " " text)).

Definition remove_commas (s : string) : string := replace "," "" s.

(** *** Annual rent *)

Definition rent_patterns : list regex := map compile [
  "annual\s+rental\s+payment[:\s]+\$([0-9,]+)";
  "annual\s+rent.*?\$([0-9,]+)";
  "rent.*?\$([0-9,]+).*?per\s+year";
  "\$([0-9,]+).*?annual";
  "payment.*?\$([0-9,]+)";
  "lease\s+payment.*?\$([0-9,]+)";
  "rent.*?of\s+\$([0-9,]+)";
  "sum\s+of\s+\$([0-9,]+)";
  "amount\s+of\s+\$([0-9,]+)";
  "compensation.*?\$([0-9,]+)";
  "shall\s+pay.*?\$([0-9,]+)";
  "per\s+acre.*?\$([0-9,]+)";
  "\$([0-9,]+).*?per\s+acre";
  "([0-9,]+)\s+dollars?.*?annual";
  "total.*?rent.*?\$([0-9,]+)"
].

Definition rent_in_range (v : Z) : bool := (1000 <=? v) && (v <=? 10000000).

(** What one pattern of the rent loop yields: the amount its first match
    captures, when [int] reads it and it lies in the accepted range. *)
Definition rent_of_pattern (text_clean : string) (p : regex) : option Z :=
  match search p text_clean with
  | Some m =>
      match int_of_str (remove_commas (group m 1)) with
      | Some rent_amount =>
          if rent_in_range rent_amount then Some rent_amount else None
      | None => None                      (* except ValueError: continue *)
      end
  | None => None
  end.

(** The loop over [rent_patterns], left at the first accepted amount. *)
Fixpoint rent_loop (patterns : list regex) (text_clean : string) : option Z :=
  match patterns with
  | [] => None
  | p :: rest =>
      match rent_of_pattern text_clean p with
      | Some v => Some v                  (* break *)
      | None => rent_loop rest text_clean
      end
  end.

(** *** Term in years *)

Definition number_words : list (string * Z) := [
  ("one", 1); ("two", 2); ("three", 3); ("four", 4); ("five", 5); ("six", 6);
  ("seven", 7); ("eight", 8); ("nine", 9); ("ten", 10); ("eleven", 11);
  ("twelve", 12); ("thirteen", 13); ("fourteen", 14); ("fifteen", 15);
  ("sixteen", 16); ("seventeen", 17); ("eighteen", 18); ("nineteen", 19);
  ("twenty", 20); ("thirty", 30); ("forty", 40); ("fifty", 50); ("sixty", 60)
].

(** [number_words.get(key, None)] *)
Fixpoint words_get (key : string) (table : list (string * Z)) : option Z :=
  match table with
  | [] => None
  | (w, v) :: rest => if String.eqb key w then Some v else words_get key rest
  end.

Definition term_patterns : list regex := map compile [
  "for\s+([0-9]+)\s+years?";
  "term.*?([0-9]+)\s+years?";
  "([0-9]+)\s+year\s+term";
  "lease\s+term.*?([0-9]+)";
  "initial\s+term.*?([0-9]+)\s+years?";
  "period\s+of\s+([0-9]+)\s+years?";
  "for\s+a\s+term\s+of\s+([0-9]+)";
  "([0-9]+)\s+years?.*?term";
  "commencing.*?([0-9]+)\s+years?";
  "lease.*?([0-9]+)\s+years?.*?period";
  "expires.*?([0-9]+)\s+years?";
  "(" ++ join "|" (map fst number_words) ++ ")\s*\([0-9]+\)?\s+years?";
  "(" ++ join "|" (map fst number_words) ++ ")\s+years?"
].

Definition renewal_pattern : regex :=
  compile "([0-9]+)\s+renewal\s+terms?\s+of\s+([0-9]+)\s+years?".

(** The value of one captured count: [int(val)] for digits, the table's
    entry for a number word. *)
Definition years_of (val : string) : option Z :=
  if isdigit val then Some (digits_value 0 val)
  else words_get (lower val) number_words.

(** [if years_val: term_candidates.append(years_val)]: neither [None] nor
    [0] is appended. *)
Definition candidate_of_match (m : match_obj) : list Z :=
  match years_of (group m 1) with
  | Some years_val => if years_val =? 0 then [] else [years_val]
  | None => []
  end.

(** The two nested loops: every match of every pattern, in order. *)
Definition collect_terms (patterns : list regex) (text_clean : string) : list Z :=
  flat_map (fun p => flat_map candidate_of_match (finditer p text_clean)) patterns.

(** The renewal clause: the candidates with the total appended when the
    pattern matches and both counts are read. *)
Definition add_renewal (text_clean : string) (term_candidates : list Z) : list Z :=
  match search renewal_pattern text_clean with
  | Some renewal_match =>
      match int_of_str (group renewal_match 1),
            int_of_str (group renewal_match 2) with
      | Some renew_count, Some renew_years =>
          let initial_term :=
            match term_candidates with
            | c :: cs => max_int c cs
            | [] => renew_years
            end in
          term_candidates ++ [initial_term + renew_count * renew_years]
      | _, _ => term_candidates           (* except ValueError: pass *)
      end
  | None => term_candidates
  end.

Definition term_candidates (text_clean : string) : list Z :=
  add_renewal text_clean (collect_terms term_patterns text_clean).

Definition reasonable (t : Z) : bool := (15 <=? t) && (t <=? 35).

Definition resolve_term (candidates : list Z) : option Z :=
  match candidates with
  | [] => None
  | c :: cs =>
      match filter reasonable candidates with
      | r :: rs => Some (max_int r rs)
      | [] => let m := min_int c cs in if m <=? 50 then Some m else None
      end
  end.

(** [lease_data.get("term_years") and lease_data["term_years"] < 10]:
    the left operand is false on [None] and on [0]. *)
Definition review_flag (term : option Z) : bool :=
  match term with
  | Some t => negb (t =? 0) && (t <? 10)
  | None => false
  end.

(** *** Escalator *)

Definition escalator_patterns : list regex := map compile [
  "escalat.*?([0-9]+(?:\.[0-9]+)?)\s*%";
  "increas.*?([0-9]+(?:\.[0-9]+)?)\s*%.*?(?:annual|per\s+year)";
  "([0-9]+(?:\.[0-9]+)?)\s*%.*?escalat";
  "([0-9]+(?:\.[0-9]+)?)\s*percent.*?(?:annual|per\s+year).*?increas"
].

Definition pct_in_range (p : float) : bool := fle half p && fle p five.

(** The percentage one escalator pattern yields, when it is in range. *)
Definition pct_of_pattern (text_clean : string) (p : regex) : option float :=
  match search p text_clean with
  | Some m =>
      match float_of_str (group m 1) with
      | Some escalator_pct =>
          if pct_in_range escalator_pct then Some escalator_pct else None
      | None => None                      (* except ValueError: continue *)
      end
  | None => None
  end.

(** The loop over [escalator_patterns]: the rate set, if one is. *)
Fixpoint escalator_loop (patterns : list regex) (text_clean : string)
  : option float :=
  match patterns with
  | [] => None
  | p :: rest =>
      match pct_of_pattern text_clean p with
      | Some pct => Some (fdiv pct hundred)      (* break *)
      | None => escalator_loop rest text_clean
      end
  end.

(** *** Acreage *)

Definition acres_patterns : list regex := map compile [
  "([0-9,]+(?:\.[0-9]+)?)\s+acres?";
  "acres?.*?([0-9,]+(?:\.[0-9]+)?)";
  "([0-9,]+)\s+acres?\s+more\s+or\s+less"
].

Fixpoint acres_loop (patterns : list regex) (text_clean : string)
  : option float :=
  match patterns with
  | [] => None
  | p :: rest =>
      match search p text_clean with
      | Some m =>
          match float_of_str (remove_commas (group m 1)) with
          | Some a => Some a                     (* break *)
          | None => acres_loop rest text_clean   (* except ValueError: continue *)
          end
      | None => acres_loop rest text_clean
      end
  end.

(** *** Rent per acre *)

Definition per_acre_pattern : regex :=
  compile "\$([0-9,]+(?:\.[0-9]+)?)\s+per\s+(?:utilized\s+)?acre".

(** The list comprehension [[float(r.replace(',', '')) for r in rates]]:
    [None] when one conversion raises [ValueError]. *)
Fixpoint floats_of (rates : list string) : option (list float) :=
  match rates with
  | [] => Some []
  | r :: rest =>
      match float_of_str (remove_commas r) with
      | Some x =>
          match floats_of rest with
          | Some xs => Some (x :: xs)
          | None => None
          end
      | None => None
      end
  end.


(** The override test on an accepted rent and the computed one. *)
Definition far_from (rent : option Z) (computed_rent : Z) : bool :=
  match rent with
  | None => true
  | Some r =>
      (computed_rent * 3 <? r) || int_lt_float r (int_truediv computed_rent 3)
  end.

(** The per-acre block: the rent after it.  The [try] catches the
    [ValueError] of [float] and of [int]; the [OverflowError] of [int] on an
    infinite product leaves the function. *)
Definition per_acre_override (text_clean : string) (acres_found : option float)
           (rent : option Z) : result (option Z) :=
  let per_acre_rates := findall per_acre_pattern text_clean in
  match per_acre_rates, acres_found with
  | _ :: _, Some a =>
      if float_truthy a then
        match floats_of per_acre_rates with
        | Some (x :: xs) =>
            let rate := max_float x xs in
            match int_of_float (fmul rate a) with
            | Ok computed_rent =>
                if far_from rent computed_rent
                then Ok (Some computed_rent)
                else Ok rent
            | Raise ValueError => Ok rent          (* except ValueError: pass *)
            | Raise OverflowError => Raise OverflowError
            end
        | _ => Ok rent                             (* except ValueError: pass *)
        end
      else Ok rent
  | _, _ => Ok rent
  end.

(** *** Location *)

Definition state_patterns : list regex := map compile [
  "state\s+of\s+([a-z]+)";
  "in\s+the\s+state\s+of\s+([a-z]+)";
  "([a-z]+)\s+state";
  "county[,\s]+([a-z]+)";
  "within\s+([a-z]+)\s+county";
  "located\s+in\s+([a-z]+)";
  "situated\s+in\s+([a-z]+)";
  "([a-z]+)\s+county"
].

Definition combined_pattern : regex := compile "([a-z]+)\s+county[\s,]+([a-z]+)".

Definition combined_location (text_clean : string) : option string :=
  match search combined_pattern text_clean with
  | Some combined_match =>
      let county := title (group combined_match 1) in
      let state := title (group combined_match 2) in
      if (2 <? String.length county)%nat && (2 <? String.length state)%nat
      then Some (county ++ " County, " ++ state)
      else None
  | None => None
  end.

Fixpoint state_loop (patterns : list regex) (text_clean : string)
  : option string :=
  match patterns with
  | [] => None
  | p :: rest =>
      match search p text_clean with
      | Some m =>
          let loc := title (group m 1) in
          if (2 <? String.length loc)%nat then Some loc   (* break *)
          else state_loop rest text_clean
      | None => state_loop rest text_clean
      end
  end.

Definition resolve_location (text_clean : string) : option string :=
  match combined_location text_clean with
  | Some l => Some l
  | None => state_loop state_patterns text_clean
  end.

(** *** Developer *)

Definition company_patterns : list regex := map compile [
  "lessee[:\s]+([a-z\s,\.]+llc)";
  "lessee[:\s]+([a-z\s,\.]+inc)";
  "developer[:\s]+([a-z\s,\.]+llc)";
  "([a-z\s]+solar[a-z\s]*llc)";
  "([a-z\s]+energy[a-z\s]*llc)";
  "([a-z\s]+renewable[a-z\s]*llc)"
].

Fixpoint company_loop (patterns : list regex) (text_clean : string)
  : option string :=
  match patterns with
  | [] => None
  | p :: rest =>
      match search p text_clean with
      | Some m =>
          let company := title (strip (group m 1)) in
          if (5 <? String.length company)%nat then Some company   (* break *)
          else company_loop rest text_clean
      | None => company_loop rest text_clean
      end
  end.

(** *** [extract_lease_data_from_text] *)

Definition extract_lease_data_from_text (text filename : string)
  : result lease_data :=
  let text_clean := clean_text text in
  let rent := rent_loop rent_patterns text_clean in
  let term := resolve_term (term_candidates text_clean) in
  let esc := escalator_loop escalator_patterns text_clean in
  let acres_found := acres_loop acres_patterns text_clean in
  match per_acre_override text_clean acres_found rent with
  | Raise e => Raise e
  | Ok rent' =>
      Ok {| name := base_name filename;
            annual_rent := rent';
            term_years := term;
            escalator := match esc with Some e => e | None => zero end;
            risk_tier := "medium";
            location := resolve_location text_clean;
            acres := acres_found;
            developer := company_loop company_patterns text_clean;
            landowners := None;
            needs_review := review_flag term |}
  end.

(** * Vocabulary of the properties *)

(** ** A declarative reading of patterns *)

(** A state of the matcher: the remaining text, its offset, the spans set. *)
Record state : Type := St { rest : string; pos : N; caps : captures }.

(** [matches r a b]: the pattern [r] can take the matcher from the state
    [a] to the state [b], whatever the order the alternatives are tried in. *)
Inductive matches : regex -> state -> state -> Prop :=
| M_eps a : matches REps a a
| M_char x t p c : matches (RChar x) (St (String x t) p c) (St t (p + 1)%N c)
| M_any x t p c :
    Ascii.eqb x newline = false ->
    matches RAny (St (String x t) p c) (St t (p + 1)%N c)
| M_set items x t p c :
    set_matches items x = true ->
    matches (RSet items) (St (String x t) p c) (St t (p + 1)%N c)
| M_cat r1 r2 a b c :
    matches r1 a b -> matches r2 b c -> matches (RCat r1 r2) a c
| M_alt_l r1 r2 a b : matches r1 a b -> matches (RAlt r1 r2) a b
| M_alt_r r1 r2 a b : matches r2 a b -> matches (RAlt r1 r2) a b
| M_star_stop g r a : matches (RStar g r) a a
| M_star_step g r a b c :
    matches r a b -> matches (RStar g r) b c -> matches (RStar g r) a c
| M_plus g r a b c :
    matches r a b -> matches (RStar g r) b c -> matches (RPlus g r) a c
| M_opt_skip g r a : matches (ROpt g r) a a
| M_opt_take g r a b : matches r a b -> matches (ROpt g r) a b
| M_group i r a b :
    matches r a b ->
    matches (RGroup i r) a
            (St (rest b) (pos b) ((i, (pos a, pos b)) :: caps b)).

(** The state [a] is a position of [text]: what remains at its offset. *)
Definition at_pos (text : string) (a : state) : Prop :=
  exists pre, text = pre ++ rest a /\ pos a = N.of_nat (String.length pre).

(** The groups of a pattern, with their bodies. *)
Fixpoint group_bodies (r : regex) : list (nat * regex) :=
  match r with
  | RCat a b | RAlt a b => group_bodies a ++ group_bodies b
  | RStar _ a | RPlus _ a | ROpt _ a => group_bodies a
  | RGroup i a => (i, a) :: group_bodies a
  | _ => []
  end.

(** Group [i] takes part in every match of the pattern. *)
Fixpoint always_sets (i : nat) (r : regex) : bool :=
  match r with
  | RCat a b => always_sets i a || always_sets i b
  | RAlt a b => always_sets i a && always_sets i b
  | RPlus _ a => always_sets i a
  | RGroup j a => Nat.eqb i j || always_sets i a
  | _ => false
  end.


(** [(s', pos')] lies ahead of [(s, pos)]: the offset has advanced by the
    number of characters consumed. *)
Definition reach (s : string) (pos : N) (s' : string) (pos' : N) : Prop :=
  (String.length s' <= String.length s)%nat /\
  pos' = (pos + N.of_nat (String.length s - String.length s'))%N.

Definition agree_from {R : Type} (s : string) (pos : N) (k1 k2 : cont R) : Prop :=
  forall s' pos' caps',
    reach s pos s' pos' -> k1 s' pos' caps' = k2 s' pos' caps'.

(** A matching step that looks at its continuation ahead of its position
    only. *)
Definition extensional {R : Type}
           (step : string -> N -> captures -> cont R -> option R) : Prop :=
  forall s pos caps k1 k2,
    agree_from s pos k1 k2 -> step s pos caps k1 = step s pos caps k2.

(** A matching step that succeeds through its continuation only. *)
Definition fails_without_cont {R : Type}
           (step : string -> N -> captures -> cont R -> option R) : Prop :=
  forall s pos caps, step s pos caps (fun _ _ _ => None) = None.

(** A matching step that succeeds only along a match of [r]. *)
Definition sound_step {R : Type} (r : regex)
           (step : string -> N -> captures -> cont R -> option R) : Prop :=
  forall s p c k x,
    step s p c k = Some x ->
    exists b, matches r (St s p c) b /\ k (rest b) (pos b) (caps b) = Some x.

(** ** Loops that stop at the first pattern yielding a value *)

Section FirstYield.

Context {A : Type} (f : regex -> option A).

Fixpoint find_first (patterns : list regex) : option A :=
  match patterns with
  | [] => None
  | p :: rest =>
      match f p with
      | Some v => Some v
      | None => find_first rest
      end
  end.

(** [p] is the first of [patterns] on which [f] yields, and it yields [v]. *)
Definition first_yielding (patterns : list regex) (p : regex) (v : A) : Prop :=
  exists pre post,
    patterns = (pre ++ p :: post)%list /\
    Forall (fun q => f q = None) pre /\
    f p = Some v.

End FirstYield.

(** ** What the claims speak of *)

(** [r] was accepted by the rent loop: it is the amount captured by the
    first match of the first pattern that yields an amount in range. *)
Definition accepted_by_rent_patterns (tc : string) (r : Z) : Prop :=
  1000 <= r <= 10000000 /\
  exists p m,
    first_yielding (rent_of_pattern tc) rent_patterns p r /\
    search p tc = Some m /\
    int_of_str (remove_commas (group m 1)) = Some r.

(** [r] is the per-acre value: [int] of the largest per-acre rate times the
    resolved acreage. *)
Definition per_acre_value (tc : string) (r : Z) : Prop :=
  exists x xs a,
    floats_of (findall per_acre_pattern tc) = Some (x :: xs) /\
    acres_loop acres_patterns tc = Some a /\
    int_of_float (fmul (max_float x xs) a) = Ok r.

(** [t] is the largest candidate lying in [15, 35]. *)
Definition largest_reasonable (candidates : list Z) (t : Z) : Prop :=
  In t candidates /\ 15 <= t <= 35 /\
  forall c, In c candidates -> 15 <= c <= 35 -> c <= t.

(** [m] is the smallest candidate. *)
Definition smallest (candidates : list Z) (m : Z) : Prop :=
  In m candidates /\ forall c, In c candidates -> m <= c.


(** The rate comes from the percentage [pct] that pattern [p] captured, [p]
    being the first escalator pattern that yields a percentage in range. *)
Definition escalator_from (tc : string) (rate : float) : Prop :=
  exists p m pct,
    first_yielding (pct_of_pattern tc) escalator_patterns p pct /\
    search p tc = Some m /\
    float_of_str (group m 1) = Some pct /\
    fle half pct = true /\ fle pct five = true /\
    rate = fdiv pct hundred.

(** The document name with every occurrence of ".pdf", then of ".docx",
    taken out. *)
Definition without_extensions (filename : string) : string :=
  replace ".docx" "" (replace ".pdf" "" filename).

(** ** Texts and records of the examples *)

Fixpoint repeat_char (c : ascii) (n : nat) : string :=
  match n with
  | O => EmptyString
  | S k => String c (repeat_char c k)
  end.

(** A per-acre rate of 309 nines, more than binary64 holds. *)
Definition overflow_text : string :=
  "$" ++ repeat_char "9" 309 ++ " per acre on 2 acres".

Definition override_text : string :=
  "annual rent $50,000, or $15 per acre, 640 acres".

Definition override_record : lease_data :=
  MkLease "Lease" (Some 9600) None zero "medium" None
          (Some (float_of_Z 640)) None None false.


Definition zero_acres_text : string :=
  "annual rent $5,000, or $15 per acre, 0 acres".

Definition two_terms_text : string :=
  "for 25 years; the lease term is 40 years, or ten (10) years".

Definition two_terms_record : lease_data :=
  MkLease "Lease" None (Some 25) zero "medium" None None None None false.

Definition renewal_text : string :=
  "for 10 years with 2 renewal terms of 10 years".

(** The match of the renewal pattern in [renewal_text]: the counts are at
    the offsets 18..19 and 37..39. *)
Definition renewal_match : match_obj :=
  MkMatch renewal_text 45 "" [(2%nat, (37, 39)%N); (1%nat, (18, 19)%N)].

Definition zero_term_text : string := "2 renewal terms of 0 years".

Definition escalator_text : string :=
  "escalator of 9%, and an increase of 3 % per year".

Definition escalator_record : lease_data :=
  MkLease "Lease" None None (fdiv (float_of_Z 3) hundred) "medium"
          None None None None false.

(** * Vocabulary of the further properties *)

(** ** The normal form of a cleaned text *)

(** The number of white-space characters a text begins with, and the text
    after them. *)
Fixpoint leading_spaces (s : string) : N :=
  match s with
  | String c t => if is_space c then (1 + leading_spaces t)%N else 0%N
  | EmptyString => 0%N
  end.

Fixpoint skip_spaces (s : string) : string :=
  match s with
  | String c t => if is_space c then skip_spaces t else s
  | EmptyString => EmptyString
  end.

(** Every run of white space replaced by one blank; [in_run] tells that the
    character before was white space. *)
Fixpoint squeeze (in_run : bool) (s : string) : string :=
  match s with
  | EmptyString => EmptyString
  | String c t =>
      if is_space c
      then if in_run then squeeze true t else String " " (squeeze true t)
      else String c (squeeze false t)
  end.

(** The only white space of [s] is the blank, and no two blanks are
    adjacent; [after_blank] tells that the character before was a blank. *)
Fixpoint single_blanks (after_blank : bool) (s : string) : bool :=
  match s with
  | EmptyString => true
  | String c t =>
      if is_space c
      then Ascii.eqb c " " && negb after_blank && single_blanks true t
      else single_blanks false t
  end.

Definition no_upper (s : string) : bool :=
  all_chars (fun c => negb (is_upper c)) s.

(** ** Signs of floats *)

(** [x] is +0.0, a positive number or +infinity: not negative, not a NaN. *)
Definition non_negative (x : float) : bool :=
  match x with
  | S754_zero false | S754_infinity false | S754_finite false _ _ => true
  | _ => false
  end.

(** ** Words *)

(** A capital letter followed by small letters only. *)
Definition capitalised (s : string) : bool :=
  match s with
  | String c t => is_upper c && all_chars is_lower t
  | EmptyString => false
  end.

(** The body [[a-z]+] of a group. *)
Definition is_letters_plus (body : regex) : bool :=
  match body with
  | RPlus true (RSet [CRange lo hi]) => Ascii.eqb lo "a" && Ascii.eqb hi "z"
  | _ => false
  end.

(** Group [i] of the pattern takes part in every match, and the body of
    every group numbered [i] is [[a-z]+]. *)
Definition captures_word (i : nat) (r : regex) : bool :=
  always_sets i r &&
  forallb (fun jb => negb (Nat.eqb (fst jb) i) || is_letters_plus (snd jb))
          (group_bodies r).


(** * [process_document]

    The caller of the extractor.  Reading the file is the work of
    collaborators outside the module's logic (the JSON parser, pdfplumber,
    python-docx); they are variables here, taken to return: [load_json]
    gives [None] when opening or parsing the file raises an exception.  The
    lines the function prints are recorded by kind. *)

(** The attributes of the [Path] that the function reads. *)
Record path : Type := MkPath { suffix : string; stem : string }.

Inductive message : Type :=
| ErrorReadingJson
| UnsupportedFileType
| NoTextExtracted
| MissingCriticalData.

Section ProcessDocument.

Variable J : Type.
Variable load_json : path -> option J.
Variable extract_text_from_pdf : path -> string.
Variable extract_text_from_docx : path -> string.

(** What the function returns: a parsed JSON document as it is, or the
    dictionary of the extractor. *)
Inductive document : Type :=
| Structured (j : J)
| Extracted (d : lease_data).

(** The text of a PDF or Word file; [None] for another extension. *)
Definition acquire_text (file_path : path) : option string :=
  let file_ext := lower (suffix file_path) in
  if String.eqb file_ext ".pdf" then Some (extract_text_from_pdf file_path)
  else if String.eqb file_ext ".docx"
       then Some (extract_text_from_docx file_path)
       else None.

Definition is_none {A : Type} (o : option A) : bool :=
  match o with
  | None => true
  | Some _ => false
  end.

Definition process_document (file_path : path)
  : result (option document * list message) :=
  let file_ext := lower (suffix file_path) in
  if String.eqb file_ext ".json" then
    match load_json file_path with
    | Some j => Ok (Some (Structured j), [])
    | None => Ok (None, [ErrorReadingJson])
    end
  else
    match acquire_text file_path with
    | None => Ok (None, [UnsupportedFileType])
    | Some text =>
        match strip text with
        | EmptyString => Ok (None, [NoTextExtracted])
        | _ =>
            match extract_lease_data_from_text text (stem file_path) with
            | Raise e => Raise e
            | Ok lease =>
                Ok (Some (Extracted lease),
                    if is_none (annual_rent lease) || is_none (term_years lease)
                    then [MissingCriticalData]
                    else [])
            end
        end
    end.

End ProcessDocument.


(** * Properties *)

(** ** The patterns and the scenarios of the specification *)

(** Every pattern of the source is inside the syntax [compile] reads. *)
Lemma patterns_compile :
  forallb (fun r => match r with RFail => false | _ => true end)
          (rent_patterns ++ term_patterns ++ escalator_patterns
           ++ acres_patterns ++ state_patterns ++ company_patterns
           ++ [renewal_pattern; per_acre_pattern; combined_pattern;
               compile "\s+"]) = true.
Proof. vm_compute. reflexivity. Qed.

Example rent_and_term_scenario :
  extract_lease_data_from_text
    "Annual Rental Payment: $50,000 for 25 years" "my_lease.pdf"
  = Ok (MkLease "My Lease" (Some 50000) (Some 25) zero "medium"
                None None None None false).
Proof. vm_compute. reflexivity. Qed.

Example short_term_scenario :
  extract_lease_data_from_text "for 5 years" "lease"
  = Ok (MkLease "Lease" None (Some 5) zero "medium" None None None None true).
Proof. vm_compute. reflexivity. Qed.

Example location_scenario :
  match extract_lease_data_from_text "Smith County, Wyoming" "lease" with
  | Ok r => location r
  | Raise _ => None
  end = Some "Smith County, Wyoming".
Proof. vm_compute. reflexivity. Qed.

(** ** Strings *)

Lemma append_assoc (a b c : string) : (a ++ b) ++ c = a ++ (b ++ c).
Proof. induction a as [| x a IH]; simpl; [reflexivity | now rewrite IH]. Qed.

Lemma length_append (a b : string) :
  String.length (a ++ b) = (String.length a + String.length b)%nat.
Proof. induction a as [| x a IH]; simpl; [reflexivity | now rewrite IH]. Qed.

Lemma substring_middle (pre w suf : string) :
  substring (String.length pre) (String.length w) (pre ++ w ++ suf) = w.
Proof.
  induction pre as [| x pre IH]; simpl; [| exact IH].
  induction w as [| y w IHw]; simpl.
  - now destruct suf.
  - now rewrite IHw.
Qed.

Lemma title_from_length (b : bool) (s : string) :
  String.length (title_from b s) = String.length s.
Proof.
  revert b. induction s as [| c t IH]; intros b; simpl; [reflexivity |].
  now rewrite IH.
Qed.

Lemma title_empty (s : string) : title s = "" <-> s = "".
Proof.
  split; intros H.
  - destruct s; [reflexivity |].
    apply (f_equal String.length) in H. unfold title in H.
    rewrite title_from_length in H. discriminate H.
  - now subst.
Qed.

Lemma underscores_empty (s : string) : replace "_" " " s = "" <-> s = "".
Proof.
  split; intros H; [| now subst].
  destruct s as [| c t]; [reflexivity |].
  unfold replace in H. cbn [replace_from] in H.
  destruct (prefix "_" (String c t)); [| discriminate H].
  cbn [append] in H. discriminate H.
Qed.

(** ** The matcher: the fuel of a repetition is enough *)

Lemma reach_refl (s : string) (pos : N) : reach s pos s pos.
Proof. unfold reach. split; [lia |]. rewrite Nat.sub_diag. simpl. lia. Qed.

Lemma reach_trans (a b c : string) (pa pb pc : N) :
  reach a pa b pb -> reach b pb c pc -> reach a pa c pc.
Proof. unfold reach. intros [H1 ->] [H2 ->]. split; lia. Qed.

Lemma reach_tail (x : ascii) (t : string) (pos : N) :
  reach (String x t) pos t (pos + 1)%N.
Proof.
  unfold reach. change (String.length (String x t)) with (S (String.length t)).
  split; lia.
Qed.

Section MatcherFuel.

Variable R : Type.

Implicit Types (step : string -> N -> captures -> cont R -> option R).

Lemma agree_from_reach (s : string) (pos : N) (s1 : string) (p1 : N)
      (k1 k2 : cont R) :
  agree_from s pos k1 k2 -> reach s pos s1 p1 -> agree_from s1 p1 k1 k2.
Proof.
  intros H Hr s' p' c' Hr'. apply H. eapply reach_trans; eassumption.
Qed.

Lemma repeat_from_ext step (g : bool) :
  extensional step ->
  forall fuel, extensional (repeat_from R step g fuel).
Proof.
  intros Hstep fuel. induction fuel as [| f IH]; intros s pos caps k1 k2 Hk.
  - simpl. apply Hk, reach_refl.
  - simpl.
    assert (Hin : step s pos caps
                    (fun s1 p1 c1 => if (pos <? p1)%N
                                     then repeat_from R step g f s1 p1 c1 k1
                                     else None)
                  = step s pos caps
                    (fun s1 p1 c1 => if (pos <? p1)%N
                                     then repeat_from R step g f s1 p1 c1 k2
                                     else None)).
    { apply Hstep. intros s1 p1 c1 Hr. destruct (pos <? p1)%N; [| reflexivity].
      apply IH. eapply agree_from_reach; eassumption. }
    rewrite Hin, (Hk s pos caps (reach_refl s pos)). reflexivity.
Qed.

Lemma rmatch_ext (r : regex) : extensional (rmatch R r).
Proof.
  induction r as [| | c | | items | r1 IH1 r2 IH2 | r1 IH1 r2 IH2
                  | g r1 IH1 | g r1 IH1 | g r1 IH1 | i r1 IH1];
    intros s pos caps k1 k2 Hk; simpl.
  - apply Hk, reach_refl.
  - reflexivity.
  - destruct s as [| x t]; [reflexivity |].
    destruct (Ascii.eqb x c); [apply Hk, reach_tail | reflexivity].
  - destruct s as [| x t]; [reflexivity |].
    destruct (Ascii.eqb x newline); [reflexivity | apply Hk, reach_tail].
  - destruct s as [| x t]; [reflexivity |].
    destruct (set_matches items x); [apply Hk, reach_tail | reflexivity].
  - apply IH1. intros s1 p1 c1 Hr. apply IH2.
    eapply agree_from_reach; eassumption.
  - rewrite (IH1 s pos caps k1 k2 Hk), (IH2 s pos caps k1 k2 Hk). reflexivity.
  - now apply repeat_from_ext.
  - apply IH1. intros s1 p1 c1 Hr. apply repeat_from_ext; [exact IH1 |].
    eapply agree_from_reach; eassumption.
  - rewrite (IH1 s pos caps k1 k2 Hk), (Hk s pos caps (reach_refl s pos)).
    reflexivity.
  - apply IH1. intros s1 p1 c1 Hr. now apply Hk.
Qed.

Lemma repeat_from_dead step (g : bool) :
  extensional step -> fails_without_cont step ->
  forall fuel, fails_without_cont (repeat_from R step g fuel).
Proof.
  intros Hext Hdead fuel. induction fuel as [| f IH]; intros s pos caps.
  - reflexivity.
  - simpl.
    assert (Hin : step s pos caps
                    (fun s1 p1 c1 =>
                       if (pos <? p1)%N
                       then repeat_from R step g f s1 p1 c1 (fun _ _ _ => None)
                       else None) = None).
    { transitivity (step s pos caps (fun _ _ _ => None)); [| apply Hdead].
      apply Hext. intros s1 p1 c1 _.
      destruct (pos <? p1)%N; [apply IH | reflexivity]. }
    rewrite Hin. destruct g; reflexivity.
Qed.

Lemma rmatch_dead (r : regex) : fails_without_cont (rmatch R r).
Proof.
  induction r as [| | c | | items | r1 IH1 r2 IH2 | r1 IH1 r2 IH2
                  | g r1 IH1 | g r1 IH1 | g r1 IH1 | i r1 IH1];
    intros s pos caps; simpl; try reflexivity.
  - destruct s as [| x t]; [reflexivity |]. now destruct (Ascii.eqb x c).
  - destruct s as [| x t]; [reflexivity |]. now destruct (Ascii.eqb x newline).
  - destruct s as [| x t]; [reflexivity |]. now destruct (set_matches items x).
  - transitivity (rmatch R r1 s pos caps (fun _ _ _ => None)); [| apply IH1].
    apply rmatch_ext. intros s1 p1 c1 _. apply IH2.
  - now rewrite IH1, IH2.
  - apply repeat_from_dead; [apply rmatch_ext | exact IH1].
  - transitivity (rmatch R r1 s pos caps (fun _ _ _ => None)); [| apply IH1].
    apply rmatch_ext. intros s1 p1 c1 _.
    apply repeat_from_dead; [apply rmatch_ext | exact IH1].
  - destruct g; [rewrite IH1; reflexivity | apply IH1].
  - apply IH1.
Qed.

(** On the empty text a repetition does nothing. *)
Lemma repeat_from_empty step (g : bool) (fuel : nat) (pos : N)
      (caps : captures) (k : cont R) :
  extensional step -> fails_without_cont step ->
  repeat_from R step g fuel "" pos caps k = k "" pos caps.
Proof.
  intros Hext Hdead. destruct fuel as [| f]; [reflexivity |]. simpl.
  assert (Hin : step "" pos caps
                  (fun s1 p1 c1 => if (pos <? p1)%N
                                   then repeat_from R step g f s1 p1 c1 k
                                   else None) = None).
  { transitivity (step "" pos caps (fun _ _ _ => None)); [| apply Hdead].
    apply Hext. intros s1 p1 c1 [Hlen ->].
    simpl in Hlen. replace (pos <? _)%N with false; [reflexivity |].
    symmetry. apply N.ltb_ge. simpl. lia. }
  rewrite Hin. destruct g; [reflexivity |]. now destruct (k "" pos caps).
Qed.

(** Two amounts of fuel that cover the remaining text give the same result. *)
Lemma repeat_from_fuel step (g : bool) :
  extensional step -> fails_without_cont step ->
  forall (f1 f2 : nat) (s : string) (pos : N) (caps : captures) (k : cont R),
    (String.length s <= f1)%nat -> (String.length s <= f2)%nat ->
    repeat_from R step g f1 s pos caps k = repeat_from R step g f2 s pos caps k.
Proof.
  intros Hext Hdead f1.
  induction f1 as [| a IH]; intros f2 s pos caps k H1 H2.
  - destruct s; [| simpl in H1; lia].
    now rewrite !repeat_from_empty.
  - destruct f2 as [| b].
    + destruct s; [| simpl in H2; lia]. now rewrite !repeat_from_empty.
    + simpl.
      assert (Hin : step s pos caps
                      (fun s1 p1 c1 => if (pos <? p1)%N
                                       then repeat_from R step g a s1 p1 c1 k
                                       else None)
                    = step s pos caps
                      (fun s1 p1 c1 => if (pos <? p1)%N
                                       then repeat_from R step g b s1 p1 c1 k
                                       else None)).
      { apply Hext. intros s1 p1 c1 [Hlen ->].
        destruct (pos <? _)%N eqn:Hlt; [| reflexivity].
        apply N.ltb_lt in Hlt. apply IH; lia. }
      now rewrite Hin.
Qed.

(** The fuel [rmatch] gives a repetition, the length of the remaining text,
    is never exhausted early: more fuel changes nothing. *)
Lemma star_fuel_is_enough (r : regex) (g : bool) (extra : nat)
      (s : string) (pos : N) (caps : captures) (k : cont R) :
  repeat_from R (rmatch R r) g (String.length s + extra) s pos caps k
  = rmatch R (RStar g r) s pos caps k.
Proof.
  simpl.
  apply repeat_from_fuel; [apply rmatch_ext | apply rmatch_dead | lia | lia].
Qed.

End MatcherFuel.

(** ** The matcher: what a found match is *)

Section MatcherSound.

Variable R : Type.

Implicit Types (step : string -> N -> captures -> cont R -> option R).

Lemma repeat_from_sound (r : regex) step (g : bool) :
  sound_step r step ->
  forall fuel, sound_step (RStar g r) (repeat_from R step g fuel).
Proof.
  intros Hstep fuel. induction fuel as [| f IH]; intros s p c k x; simpl.
  - intros Hk. exists (St s p c). split; [constructor | exact Hk].
  - assert (Hmore :
              step s p c
                   (fun s1 p1 c1 => if (p <? p1)%N
                                    then repeat_from R step g f s1 p1 c1 k
                                    else None) = Some x ->
              exists b, matches (RStar g r) (St s p c) b /\
                        k (rest b) (pos b) (caps b) = Some x).
    { intros H. apply Hstep in H. destruct H as (b & Hb & Hk).
      destruct (p <? pos b)%N; [| discriminate].
      apply IH in Hk. destruct Hk as (b' & Hb' & Hk).
      exists b'. split; [| exact Hk].
      destruct b. econstructor; eassumption. }
    assert (Hstop : k s p c = Some x ->
                    exists b, matches (RStar g r) (St s p c) b /\
                              k (rest b) (pos b) (caps b) = Some x).
    { intros Hk. exists (St s p c). split; [constructor | exact Hk]. }
    destruct g.
    + destruct (step s p c _) as [y |] eqn:E; [intros [= ->] | ]; auto.
    + destruct (k s p c) as [y |] eqn:E; [intros [= ->] | ]; auto.
Qed.

(** When the matcher succeeds, the pattern matches up to a state on which
    the continuation succeeds. *)
Lemma rmatch_sound (r : regex) : sound_step r (rmatch R r).
Proof.
  induction r as [| | ch | | items | r1 IH1 r2 IH2 | r1 IH1 r2 IH2
                  | g r1 IH1 | g r1 IH1 | g r1 IH1 | i r1 IH1];
    intros s p c k x; simpl.
  - intros Hk. exists (St s p c). split; [constructor | exact Hk].
  - discriminate.
  - destruct s as [| y t]; [discriminate |].
    destruct (Ascii.eqb y ch) eqn:E; [| discriminate].
    apply Ascii.eqb_eq in E. subst y. intros Hk.
    exists (St t (p + 1)%N c). split; [constructor | exact Hk].
  - destruct s as [| y t]; [discriminate |].
    destruct (Ascii.eqb y newline) eqn:E; [discriminate |]. intros Hk.
    exists (St t (p + 1)%N c). split; [now constructor | exact Hk].
  - destruct s as [| y t]; [discriminate |].
    destruct (set_matches items y) eqn:E; [| discriminate]. intros Hk.
    exists (St t (p + 1)%N c). split; [now constructor | exact Hk].
  - intros H. apply IH1 in H. destruct H as (b & Hb & H).
    apply IH2 in H. destruct H as (b' & Hb' & Hk).
    exists b'. split; [| exact Hk]. destruct b. econstructor; eassumption.
  - destruct (rmatch R r1 s p c k) as [y |] eqn:E.
    + intros [= ->]. apply IH1 in E. destruct E as (b & Hb & Hk).
      exists b. split; [now apply M_alt_l | exact Hk].
    + intros H. apply IH2 in H. destruct H as (b & Hb & Hk).
      exists b. split; [now apply M_alt_r | exact Hk].
  - now apply repeat_from_sound.
  - intros H. apply IH1 in H. destruct H as (b & Hb & H).
    apply (repeat_from_sound r1 _ g IH1) in H. destruct H as (b' & Hb' & Hk).
    exists b'. split; [| exact Hk]. destruct b. econstructor; eassumption.
  - assert (Htake : rmatch R r1 s p c k = Some x ->
                    exists b, matches (ROpt g r1) (St s p c) b /\
                              k (rest b) (pos b) (caps b) = Some x).
    { intros H. apply IH1 in H. destruct H as (b & Hb & Hk).
      exists b. split; [now apply M_opt_take | exact Hk]. }
    assert (Hskip : k s p c = Some x ->
                    exists b, matches (ROpt g r1) (St s p c) b /\
                              k (rest b) (pos b) (caps b) = Some x).
    { intros Hk. exists (St s p c). split; [constructor | exact Hk]. }
    destruct g.
    + destruct (rmatch R r1 s p c k) as [y |] eqn:E; [intros [= ->] |]; auto.
    + destruct (k s p c) as [y |] eqn:E; [intros [= ->] |]; auto.
  - intros H. apply IH1 in H. destruct H as (b & Hb & Hk).
    exists (St (rest b) (pos b) ((i, (p, pos b)) :: caps b)).
    split; [| exact Hk]. now apply (M_group i r1 (St s p c) b).
Qed.

End MatcherSound.

Lemma search_from_sound (r : regex) (text s : string) (p : N) (m : match_obj) :
  at_pos text (St s p []) ->
  search_from r text s p = Some m ->
  m_text m = text /\
  exists a, at_pos text a /\ caps a = [] /\
            matches r a (St (m_rest m) (m_end m) (m_caps m)).
Proof.
  revert p. induction s as [| x t IH]; intros p Hat; simpl.
  - destruct (match_at r text "" p) as [m' |] eqn:E; [| discriminate].
    intros [= ->]. unfold match_at in E. apply rmatch_sound in E.
    destruct E as (b & Hb & [= <-]). simpl. split; [reflexivity |].
    exists (St "" p []). destruct b. auto.
  - destruct (match_at r text (String x t) p) as [m' |] eqn:E.
    + intros [= ->]. unfold match_at in E. apply rmatch_sound in E.
      destruct E as (b & Hb & [= <-]). simpl. split; [reflexivity |].
      exists (St (String x t) p []). destruct b. auto.
    + apply IH. destruct Hat as (pre & -> & Hp). simpl in *.
      exists (pre ++ String x ""). split.
      * now rewrite append_assoc.
      * rewrite length_append. simpl. lia.
Qed.

(** A match found by [search] is a match of the pattern at a position of
    the text, begun with no span set. *)
Lemma search_sound (r : regex) (text : string) (m : match_obj) :
  search r text = Some m ->
  m_text m = text /\
  exists a, at_pos text a /\ caps a = [] /\
            matches r a (St (m_rest m) (m_end m) (m_caps m)).
Proof.
  apply search_from_sound. exists "". split; reflexivity.
Qed.

Lemma matches_at_pos (text : string) (r : regex) (a b : state) :
  matches r a b -> at_pos text a -> at_pos text b.
Proof.
  assert (Hchar : forall x t p c,
             at_pos text (St (String x t) p c) ->
             at_pos text (St t (p + 1)%N c)).
  { intros x t p c (pre & -> & Hp). simpl in *. exists (pre ++ String x "").
    split; [now rewrite append_assoc | rewrite length_append; simpl; lia]. }
  induction 1; intros Hat; eauto.
Qed.

Lemma lookup_span_kept (r : regex) (a b : state) (i : nat) :
  matches r a b ->
  lookup_span i (caps a) <> None -> lookup_span i (caps b) <> None.
Proof.
  induction 1; intros Hset; auto.
  simpl. destruct (Nat.eqb i i0); [discriminate | auto].
Qed.

Lemma always_sets_sound (r : regex) (a b : state) (i : nat) :
  matches r a b -> always_sets i r = true -> lookup_span i (caps b) <> None.
Proof.
  induction 1; simpl; intros Hs; try discriminate.
  - apply orb_prop in Hs. destruct Hs as [Hs | Hs]; [| auto].
    eapply lookup_span_kept; eauto.
  - apply andb_prop in Hs. tauto.
  - apply andb_prop in Hs. tauto.
  - eapply lookup_span_kept; eauto.
  - destruct (Nat.eqb i i0); [discriminate | auto].
Qed.

(** A span found after a match was there before it, or is the span of a
    match of the body of one of the pattern's groups. *)
Lemma capture_origin (text : string) (r : regex) (a b : state)
      (i : nat) (sp : span) :
  matches r a b -> at_pos text a ->
  lookup_span i (caps b) = Some sp ->
  lookup_span i (caps a) = Some sp \/
  exists body a' b',
    In (i, body) (group_bodies r) /\ matches body a' b' /\
    at_pos text a' /\ sp = (pos a', pos b').
Proof.
  intros Hm. revert sp. induction Hm; intros sp Hat Hl; simpl; auto.
  - assert (Hat' : at_pos text b) by (eapply matches_at_pos; eauto).
    destruct (IHHm2 sp Hat' Hl) as [Hold | (body & a' & b' & Hin & H)].
    + destruct (IHHm1 sp Hat Hold) as [Hold' | (body & a' & b' & Hin & H)];
        [now left | right].
      exists body, a', b'. split; [apply in_or_app; now left | exact H].
    + right. exists body, a', b'. split; [apply in_or_app; now right | exact H].
  - destruct (IHHm sp Hat Hl) as [Hold | (body & a' & b' & Hin & H)];
      [now left | right].
    exists body, a', b'. split; [apply in_or_app; now left | exact H].
  - destruct (IHHm sp Hat Hl) as [Hold | (body & a' & b' & Hin & H)];
      [now left | right].
    exists body, a', b'. split; [apply in_or_app; now right | exact H].
  - assert (Hat' : at_pos text b) by (eapply matches_at_pos; eauto).
    destruct (IHHm2 sp Hat' Hl) as [Hold | H]; [| now right].
    apply (IHHm1 sp Hat Hold).
  - assert (Hat' : at_pos text b) by (eapply matches_at_pos; eauto).
    destruct (IHHm2 sp Hat' Hl) as [Hold | H]; [| now right].
    apply (IHHm1 sp Hat Hold).
  - simpl in Hl. destruct (Nat.eqb i i0) eqn:E.
    + apply Nat.eqb_eq in E. subst i0. injection Hl as <-. right.
      exists r, a, b. simpl. auto.
    + destruct (IHHm sp Hat Hl) as [Hold | (body & a' & b' & Hin & H)];
        [now left | right].
      exists body, a', b'. simpl. auto.
Qed.

Lemma matches_set_inv (items : list cset_item) (a b : state) :
  matches (RSet items) a b ->
  exists x, rest a = String x (rest b) /\ pos b = (pos a + 1)%N /\
            set_matches items x = true.
Proof. intros H. inversion H; subst. simpl. eauto. Qed.

Lemma matches_plus_inv (g : bool) (r : regex) (a c : state) :
  matches (RPlus g r) a c ->
  exists b, matches r a b /\ matches (RStar g r) b c.
Proof. intros H. inversion H; subst. eauto. Qed.

(** What a repetition of a set consumes: characters of the set. *)
Lemma matches_star_set (g : bool) (items : list cset_item) (a b : state) :
  matches (RStar g (RSet items)) a b ->
  exists w, rest a = w ++ rest b /\
            pos b = (pos a + N.of_nat (String.length w))%N /\
            all_chars (set_matches items) w = true.
Proof.
  intros H. remember (RStar g (RSet items)) as r eqn:Er.
  induction H; try discriminate.
  - exists "". simpl. repeat split. lia.
  - injection Er as -> ->. specialize (IHmatches2 eq_refl).
    destruct IHmatches2 as (w & Hw & Hp & Hall).
    apply matches_set_inv in H. destruct H as (x & Hx & Hq & Hin).
    exists (String x w). simpl. rewrite Hx, Hw, Hp, Hq, Hin, Hall.
    repeat split. lia.
Qed.




(** ** The loops over patterns *)

Lemma find_first_Some {A : Type} (f : regex -> option A)
      (patterns : list regex) (v : A) :
  find_first f patterns = Some v -> exists p, first_yielding f patterns p v.
Proof.
  induction patterns as [| q rest IH]; simpl; [discriminate |].
  destruct (f q) as [w |] eqn:Hq.
  - intros [= ->]. exists q, [], rest. auto.
  - intros H. destruct (IH H) as (p & pre & post & -> & Hpre & Hp).
    exists p, (q :: pre), post. auto.
Qed.

Lemma find_first_None {A : Type} (f : regex -> option A)
      (patterns : list regex) :
  find_first f patterns = None <-> Forall (fun q => f q = None) patterns.
Proof.
  induction patterns as [| q rest IH]; simpl.
  - split; auto.
  - destruct (f q) as [w |] eqn:Hq.
    + split; [discriminate |]. intros H. inversion H; congruence.
    + rewrite IH. split; [auto | intros H; now inversion H].
Qed.

Lemma rent_loop_find_first (patterns : list regex) (tc : string) :
  rent_loop patterns tc = find_first (rent_of_pattern tc) patterns.
Proof.
  induction patterns as [| p rest IH]; simpl; [reflexivity |].
  destruct (rent_of_pattern tc p); auto.
Qed.

Lemma escalator_loop_find_first (patterns : list regex) (tc : string) :
  escalator_loop patterns tc
  = option_map (fun pct => fdiv pct hundred)
               (find_first (pct_of_pattern tc) patterns).
Proof.
  induction patterns as [| p rest IH]; simpl; [reflexivity |].
  destruct (pct_of_pattern tc p); auto.
Qed.

Lemma rent_of_pattern_Some (tc : string) (p : regex) (v : Z) :
  rent_of_pattern tc p = Some v ->
  exists m, search p tc = Some m /\
            int_of_str (remove_commas (group m 1)) = Some v /\
            1000 <= v <= 10000000.
Proof.
  unfold rent_of_pattern, rent_in_range.
  destruct (search p tc) as [m |]; [| discriminate].
  destruct (int_of_str _) as [a |] eqn:Hint; [| discriminate].
  destruct (_ && _) eqn:Hr; [| discriminate].
  apply andb_prop in Hr as [Hlo Hhi]. apply Z.leb_le in Hlo, Hhi.
  intros [= ->]. exists m. repeat split; auto.
Qed.

Lemma pct_of_pattern_Some (tc : string) (p : regex) (pct : float) :
  pct_of_pattern tc p = Some pct ->
  exists m, search p tc = Some m /\
            float_of_str (group m 1) = Some pct /\
            fle half pct = true /\ fle pct five = true.
Proof.
  unfold pct_of_pattern, pct_in_range.
  destruct (search p tc) as [m |]; [| discriminate].
  destruct (float_of_str _) as [a |] eqn:Hfl; [| discriminate].
  destruct (_ && _) eqn:Hr; [| discriminate].
  intros [= ->]. exists m. apply andb_prop in Hr. tauto.
Qed.

Lemma rent_loop_accepted (tc : string) (r : Z) :
  rent_loop rent_patterns tc = Some r -> accepted_by_rent_patterns tc r.
Proof.
  rewrite rent_loop_find_first. intros H.
  destruct (find_first_Some _ _ _ H) as [p Hp].
  assert (Hy : rent_of_pattern tc p = Some r)
    by (destruct Hp as (pre & post & _ & _ & Hy); exact Hy).
  destruct (rent_of_pattern_Some _ _ _ Hy) as (m & Hs & Hi & Hr).
  split; [exact Hr |]. exists p, m. auto.
Qed.

(** ** [max] and [min] *)

Lemma max_int_spec (x : Z) (xs : list Z) :
  In (max_int x xs) (x :: xs) /\ forall y, In y (x :: xs) -> y <= max_int x xs.
Proof.
  revert x. induction xs as [| z zs IH]; intros x; simpl.
  - split; [auto | intros y [-> | []]; lia].
  - destruct (x <? z) eqn:Hlt.
    + destruct (IH z) as [Hin Hge]. split; [simpl in Hin; tauto |].
      apply Z.ltb_lt in Hlt. intros y [-> | Hy].
      * specialize (Hge z (or_introl eq_refl)). lia.
      * apply Hge, Hy.
    + destruct (IH x) as [Hin Hge]. split; [simpl in Hin; tauto |].
      apply Z.ltb_ge in Hlt. intros y [-> | [-> | Hy]].
      * apply Hge. now left.
      * specialize (Hge x (or_introl eq_refl)). lia.
      * apply Hge. now right.
Qed.

Lemma min_int_spec (x : Z) (xs : list Z) :
  In (min_int x xs) (x :: xs) /\ forall y, In y (x :: xs) -> min_int x xs <= y.
Proof.
  revert x. induction xs as [| z zs IH]; intros x; simpl.
  - split; [auto | intros y [-> | []]; lia].
  - destruct (z <? x) eqn:Hlt.
    + destruct (IH z) as [Hin Hle]. split; [simpl in Hin; tauto |].
      apply Z.ltb_lt in Hlt. intros y [-> | Hy].
      * specialize (Hle z (or_introl eq_refl)). lia.
      * apply Hle, Hy.
    + destruct (IH x) as [Hin Hle]. split; [simpl in Hin; tauto |].
      apply Z.ltb_ge in Hlt. intros y [-> | [-> | Hy]].
      * apply Hle. now left.
      * specialize (Hle x (or_introl eq_refl)). lia.
      * apply Hle. now right.
Qed.

Lemma reasonable_iff (t : Z) : reasonable t = true <-> 15 <= t <= 35.
Proof. unfold reasonable. rewrite andb_true_iff, !Z.leb_le. tauto. Qed.

(** ** The stages of the function *)

Lemma extract_Ok_inv (text filename : string) (rec : lease_data) :
  extract_lease_data_from_text text filename = Ok rec ->
  let tc := clean_text text in
  per_acre_override tc (acres_loop acres_patterns tc)
                    (rent_loop rent_patterns tc) = Ok (annual_rent rec) /\
  name rec = base_name filename /\
  term_years rec = resolve_term (term_candidates tc) /\
  needs_review rec = review_flag (term_years rec) /\
  escalator rec = match escalator_loop escalator_patterns tc with
                  | Some e => e
                  | None => zero
                  end /\
  acres rec = acres_loop acres_patterns tc.
Proof.
  unfold extract_lease_data_from_text. cbv zeta.
  destruct (per_acre_override _ _ _) as [rent' | e]; [| discriminate].
  intros [= <-]. simpl. auto 10.
Qed.


Lemma per_acre_override_Ok (tc : string) (a : option float)
      (rent rent' : option Z) :
  per_acre_override tc a rent = Ok rent' ->
  rent' = rent \/
  exists x xs y c,
    floats_of (findall per_acre_pattern tc) = Some (x :: xs) /\
    a = Some y /\
    int_of_float (fmul (max_float x xs) y) = Ok c /\
    rent' = Some c.
Proof.
  unfold per_acre_override.
  destruct (findall per_acre_pattern tc) as [| r rs] eqn:Hrates;
    [intros [= <-]; now left |].
  destruct a as [y |]; [| intros [= <-]; now left].
  destruct (float_truthy y); [| intros [= <-]; now left].
  destruct (floats_of (r :: rs)) as [[| x xs] |] eqn:Hfl;
    try (intros [= <-]; now left).
  destruct (int_of_float _) as [c | [|]] eqn:Hint;
    try discriminate; try (intros [= <-]; now left).
  destruct (far_from rent c); intros [= <-]; [right | now left].
  exists x, xs, y, c. auto.
Qed.


Lemma per_acre_override_zero_acres (tc : string) (rent : option Z) :
  per_acre_override tc (Some zero) rent = Ok rent.
Proof.
  unfold per_acre_override.
  destruct (findall per_acre_pattern tc); reflexivity.
Qed.

Lemma resolve_term_reasonable (candidates : list Z) :
  (exists c, In c candidates /\ 15 <= c <= 35) ->
  exists t, resolve_term candidates = Some t /\
            largest_reasonable candidates t.
Proof.
  intros (c & Hin & Hc). unfold resolve_term.
  destruct candidates as [| c0 cs]; [destruct Hin |].
  destruct (filter reasonable (c0 :: cs)) as [| r rs] eqn:Hf.
  - assert (Hc' : In c (filter reasonable (c0 :: cs)))
      by (apply filter_In; split; [exact Hin | now apply reasonable_iff]).
    rewrite Hf in Hc'. destruct Hc'.
  - destruct (max_int_spec r rs) as [Hmem Hge]. rewrite <- Hf in Hmem, Hge.
    exists (max_int r rs). split; [reflexivity |].
    apply filter_In in Hmem. destruct Hmem as [Hmem Hrange].
    apply reasonable_iff in Hrange. repeat split; try tauto.
    intros d Hd Hdr. apply Hge, filter_In. split; [exact Hd |].
    now apply reasonable_iff.
Qed.

Lemma resolve_term_fallback (candidates : list Z) :
  candidates <> [] ->
  (forall c, In c candidates -> ~ 15 <= c <= 35) ->
  exists m, smallest candidates m /\
            (m <= 50 -> resolve_term candidates = Some m) /\
            (50 < m -> resolve_term candidates = None).
Proof.
  intros Hne Hnone. unfold resolve_term.
  destruct candidates as [| c0 cs]; [congruence |].
  destruct (filter reasonable (c0 :: cs)) as [| r rs] eqn:Hf.
  - destruct (min_int_spec c0 cs) as [Hmem Hle].
    exists (min_int c0 cs). split; [split; assumption |].
    cbv zeta. split; intros Hm.
    + apply Z.leb_le in Hm. now rewrite Hm.
    + apply Z.leb_gt in Hm. now rewrite Hm.
  - assert (Hr : In r (filter reasonable (c0 :: cs)))
      by (rewrite Hf; now left).
    apply filter_In in Hr. destruct Hr as [Hr Hrange].
    apply reasonable_iff in Hrange. now apply Hnone in Hr.
Qed.


Lemma review_flag_true (term : option Z) :
  review_flag term = true <-> exists t, term = Some t /\ t <> 0 /\ t < 10.
Proof.
  unfold review_flag. destruct term as [t |].
  - rewrite andb_true_iff, negb_true_iff, Z.eqb_neq, Z.ltb_lt. split.
    + intros [H0 H10]. exists t. auto.
    + intros (t' & [= <-] & H0 & H10). auto.
  - split; [discriminate | intros (t & [=] & _)].
Qed.

(** * The claims *)

(** ** C1: whether the function always returns *)


(** C1 (the function never raises): it does not hold.  On [overflow_text]
    the per-acre rate is read as an infinite float, [int] of its product
    with the acreage raises [OverflowError], and the [except ValueError]
    around the block does not catch it. *)
Theorem C1_overflow_leaves_the_function :
  extract_lease_data_from_text overflow_text "lease" = Raise OverflowError.
Proof. vm_compute. reflexivity. Qed.

(** ** C2: the rent that is returned *)

(** C2: a non-null [annual_rent] of a returned record either lies in
    [1000, 10000000], being the amount the first in-range rent pattern
    captured, or is the per-acre value, the integer truncation of the
    largest per-acre rate times the resolved acreage. *)
Theorem C2_rent_accepted_or_per_acre
        (text filename : string) (rec : lease_data) (r : Z) :
  extract_lease_data_from_text text filename = Ok rec ->
  annual_rent rec = Some r ->
  accepted_by_rent_patterns (clean_text text) r \/
  per_acre_value (clean_text text) r.
Proof.
  intros Hex Hr. apply extract_Ok_inv in Hex. cbv zeta in Hex.
  destruct Hex as (Hov & _). rewrite Hr in Hov.
  apply per_acre_override_Ok in Hov.
  destruct Hov as [Hkeep | (x & xs & y & c & Hfl & Hac & Hint & [= ->])].
  - left. apply rent_loop_accepted. now symmetry.
  - right. exists x, xs, y. auto.
Qed.

Lemma C2_witness :
  extract_lease_data_from_text override_text "lease.pdf" = Ok override_record /\
  annual_rent override_record = Some 9600 /\
  (accepted_by_rent_patterns (clean_text override_text) 9600 \/
   per_acre_value (clean_text override_text) 9600).
Proof.
  assert (H : extract_lease_data_from_text override_text "lease.pdf"
              = Ok override_record) by (vm_compute; reflexivity).
  split; [exact H |]. split; [reflexivity |].
  exact (C2_rent_accepted_or_per_acre _ _ _ _ H eq_refl).
Defined.

(** ** C3: the term that is resolved *)

(** C3: with a non-empty candidate list, [term_years] is the largest
    candidate in [15, 35] when there is one; otherwise it is the smallest
    candidate when that is at most 50, and [None] when it is more. *)
Theorem C3_term_resolution (text filename : string) (rec : lease_data) :
  extract_lease_data_from_text text filename = Ok rec ->
  term_candidates (clean_text text) <> [] ->
  ((exists c, In c (term_candidates (clean_text text)) /\ 15 <= c <= 35) ->
   exists t, term_years rec = Some t /\
             largest_reasonable (term_candidates (clean_text text)) t) /\
  ((forall c, In c (term_candidates (clean_text text)) -> ~ 15 <= c <= 35) ->
   exists m, smallest (term_candidates (clean_text text)) m /\
             (m <= 50 -> term_years rec = Some m) /\
             (50 < m -> term_years rec = None)).
Proof.
  intros Hex Hne. apply extract_Ok_inv in Hex. cbv zeta in Hex.
  destruct Hex as (_ & _ & -> & _). split.
  - apply resolve_term_reasonable.
  - now apply resolve_term_fallback.
Qed.

Lemma C3_witness :
  extract_lease_data_from_text two_terms_text "lease" = Ok two_terms_record /\
  term_candidates (clean_text two_terms_text) = [25; 40; 40; 25; 10] /\
  ((exists c, In c (term_candidates (clean_text two_terms_text))
              /\ 15 <= c <= 35) ->
   exists t, term_years two_terms_record = Some t /\
             largest_reasonable (term_candidates (clean_text two_terms_text)) t) /\
  ((forall c, In c (term_candidates (clean_text two_terms_text))
              -> ~ 15 <= c <= 35) ->
   exists m, smallest (term_candidates (clean_text two_terms_text)) m /\
             (m <= 50 -> term_years two_terms_record = Some m) /\
             (50 < m -> term_years two_terms_record = None)).
Proof.
  assert (H : extract_lease_data_from_text two_terms_text "lease"
              = Ok two_terms_record) by (vm_compute; reflexivity).
  assert (Hc : term_candidates (clean_text two_terms_text)
               = [25; 40; 40; 25; 10]) by (vm_compute; reflexivity).
  split; [exact H |]. split; [exact Hc |].
  apply (C3_term_resolution two_terms_text "lease" two_terms_record H).
  rewrite Hc. discriminate.
Defined.

(** ** C4: the renewal clause *)



(** ** C5: the review flag *)

(** What the flag of a returned record is: true exactly on an accepted term
    other than 0 and below 10. *)
Lemma needs_review_true (text filename : string) (rec : lease_data) :
  extract_lease_data_from_text text filename = Ok rec ->
  (needs_review rec = true <->
   exists t, term_years rec = Some t /\ t <> 0 /\ t < 10).
Proof.
  intros Hex. apply extract_Ok_inv in Hex. cbv zeta in Hex.
  destruct Hex as (_ & _ & _ & -> & _). apply review_flag_true.
Qed.

(** C5 ([needs_review] is true iff [term_years] is non-null and below 10):
    the code departs from it on a term of 0.  On [zero_term_text] the
    renewal total 0 + 2 * 0 is the only candidate, the term resolves to 0,
    and the truth test on [lease_data.get("term_years")] leaves the flag
    false. *)
Theorem C5_zero_term_is_not_flagged :
  extract_lease_data_from_text zero_term_text "lease"
  = Ok (MkLease "Lease" None (Some 0) zero "medium" None None None None false).
Proof. vm_compute. reflexivity. Qed.

(** ** C6: the escalator *)

(** C6: an [escalator] other than the default 0.0 is a matched percentage
    in [0.5, 5.0] divided by 100, that of the first escalator pattern
    yielding a percentage in range; and when no pattern yields one the
    [escalator] is 0.0. *)
Theorem C6_escalator (text filename : string) (rec : lease_data) :
  extract_lease_data_from_text text filename = Ok rec ->
  (escalator rec <> zero -> escalator_from (clean_text text) (escalator rec)) /\
  (Forall (fun p => pct_of_pattern (clean_text text) p = None)
          escalator_patterns ->
   escalator rec = zero).
Proof.
  intros Hex. apply extract_Ok_inv in Hex. cbv zeta in Hex.
  destruct Hex as (_ & _ & _ & _ & -> & _).
  rewrite escalator_loop_find_first.
  destruct (find_first (pct_of_pattern (clean_text text)) escalator_patterns)
    as [pct |] eqn:Hff; simpl.
  - split.
    + intros _. destruct (find_first_Some _ _ _ Hff) as [p Hp].
      assert (Hy : pct_of_pattern (clean_text text) p = Some pct)
        by (destruct Hp as (pre & post & _ & _ & Hy); exact Hy).
      destruct (pct_of_pattern_Some _ _ _ Hy) as (m & Hs & Hfl & Hlo & Hhi).
      exists p, m, pct. auto 10.
    + intros Hnone. apply find_first_None in Hnone. congruence.
  - split; [congruence | reflexivity].
Qed.

Lemma C6_witness :
  extract_lease_data_from_text escalator_text "lease" = Ok escalator_record /\
  (escalator escalator_record <> zero ->
   escalator_from (clean_text escalator_text) (escalator escalator_record)) /\
  (Forall (fun p => pct_of_pattern (clean_text escalator_text) p = None)
          escalator_patterns ->
   escalator escalator_record = zero).
Proof.
  assert (H : extract_lease_data_from_text escalator_text "lease"
              = Ok escalator_record) by (vm_compute; reflexivity).
  split; [exact H |].
  exact (C6_escalator escalator_text "lease" escalator_record H).
Defined.

(** ** C7: fifteen dollars per acre on 640 acres *)



(** ** C8: the empty text *)

(** C8: on the empty text the function returns, with every extracted field
    [None], [escalator] 0.0, [risk_tier] "medium" and [needs_review] false. *)
Theorem C8_empty_text (filename : string) :
  extract_lease_data_from_text "" filename
  = Ok (MkLease (base_name filename) None None zero "medium"
                None None None None false).
Proof.
  unfold extract_lease_data_from_text. cbv zeta.
  change (clean_text "") with "".
  replace (rent_loop rent_patterns "") with (@None Z)
    by (vm_compute; reflexivity).
  replace (resolve_term (term_candidates "")) with (@None Z)
    by (vm_compute; reflexivity).
  replace (escalator_loop escalator_patterns "") with (@None float)
    by (vm_compute; reflexivity).
  replace (acres_loop acres_patterns "") with (@None float)
    by (vm_compute; reflexivity).
  replace (per_acre_override "" None None) with (@Ok (option Z) None)
    by (vm_compute; reflexivity).
  replace (resolve_location "") with (@None string)
    by (vm_compute; reflexivity).
  replace (company_loop company_patterns "") with (@None string)
    by (vm_compute; reflexivity).
  reflexivity.
Qed.

(** ** C9: the name *)

(** C9 as the code has it: the [name] is the document name with every
    occurrence of ".pdf" and then of ".docx" removed, underscores replaced
    by blanks, and title-cased; it is empty exactly when nothing is left of
    the document name after the removals. *)
Theorem C9_name_of_document (text filename : string) (rec : lease_data) :
  extract_lease_data_from_text text filename = Ok rec ->
  name rec = title (replace "_" " " (without_extensions filename)) /\
  (name rec = "" <-> without_extensions filename = "").
Proof.
  intros Hex. apply extract_Ok_inv in Hex. cbv zeta in Hex.
  destruct Hex as (_ & -> & _). unfold base_name, without_extensions.
  split; [reflexivity |]. now rewrite title_empty, underscores_empty.
Qed.

Lemma C9_witness :
  extract_lease_data_from_text override_text "lease.pdf" = Ok override_record /\
  name override_record
  = title (replace "_" " " (without_extensions "lease.pdf")) /\
  (name override_record = "" <-> without_extensions "lease.pdf" = "").
Proof.
  assert (H : extract_lease_data_from_text override_text "lease.pdf"
              = Ok override_record) by (vm_compute; reflexivity).
  split; [exact H |].
  exact (C9_name_of_document override_text "lease.pdf" override_record H).
Defined.

(** C9 as stated (the [name] is never empty): a document called ".pdf"
    gets the empty name. *)
Lemma C9_empty_name :
  exists rec,
    extract_lease_data_from_text "" ".pdf" = Ok rec /\ name rec = "".
Proof. eexists. split; vm_compute; reflexivity. Qed.

(** The removal is of every occurrence, not of a suffix only. *)
Example extension_inside_the_name :
  base_name "site.pdf_plan_v2.docx" = "Site Plan V2".
Proof. vm_compute. reflexivity. Qed.

(** ** C10: an acreage of zero *)

(** C10: when the acreage resolves to 0.0 the per-acre block changes
    nothing: the record is returned and its [annual_rent] is what the rent
    loop accepted (possibly [None]), whatever per-acre rates the text has. *)
Theorem C10_zero_acres_no_override (text filename : string) :
  acres_loop acres_patterns (clean_text text) = Some zero ->
  exists rec,
    extract_lease_data_from_text text filename = Ok rec /\
    annual_rent rec = rent_loop rent_patterns (clean_text text).
Proof.
  intros Hacres. unfold extract_lease_data_from_text. cbv zeta.
  rewrite Hacres, per_acre_override_zero_acres.
  eexists. split; reflexivity.
Qed.

Lemma C10_witness :
  acres_loop acres_patterns (clean_text zero_acres_text) = Some zero /\
  findall per_acre_pattern (clean_text zero_acres_text) = ["15"] /\
  rent_loop rent_patterns (clean_text zero_acres_text) = Some 5000 /\
  exists rec,
    extract_lease_data_from_text zero_acres_text "lease" = Ok rec /\
    annual_rent rec = rent_loop rent_patterns (clean_text zero_acres_text).
Proof.
  assert (H : acres_loop acres_patterns (clean_text zero_acres_text)
              = Some zero) by (vm_compute; reflexivity).
  split; [exact H |].
  split; [vm_compute; reflexivity |].
  split; [vm_compute; reflexivity |].
  exact (C10_zero_acres_no_override zero_acres_text "lease" H).
Defined.

(** * Further properties of the extractor *)

(** ** The text normaliser *)

Lemma compile_spaces : compile "\s+" = RPlus true (RSet [CSpace]).
Proof. vm_compute. reflexivity. Qed.

Lemma set_space (x : ascii) : set_matches [CSpace] x = is_space x.
Proof. unfold set_matches. simpl. apply orb_false_r. Qed.

(** A greedy repetition of [\s] before a continuation that always succeeds
    takes the whole run of white space. *)
Lemma repeat_spaces (R : Type) (k : cont R) :
  (forall s p c, k s p c <> None) ->
  forall (s : string) (fuel : nat) (p : N) (c : captures),
    (String.length s <= fuel)%nat ->
    repeat_from R (rmatch R (RSet [CSpace])) true fuel s p c k
    = k (skip_spaces s) (p + leading_spaces s)%N c.
Proof.
  intros Hk s. induction s as [| x t IH]; intros fuel p c Hfuel.
  - simpl. rewrite N.add_0_r. destruct fuel; reflexivity.
  - destruct fuel as [| f]; [simpl in Hfuel; lia |].
    cbn [repeat_from rmatch skip_spaces leading_spaces].
    rewrite set_space. destruct (is_space x).
    + replace (p <? p + 1)%N with true by (symmetry; apply N.ltb_lt; lia).
      rewrite IH by (simpl in Hfuel; lia).
      replace (p + 1 + leading_spaces t)%N with (p + (1 + leading_spaces t))%N
        by lia.
      destruct (k (skip_spaces t) (p + (1 + leading_spaces t))%N c) eqn:E;
        [reflexivity | now apply Hk in E].
    + now rewrite N.add_0_r.
Qed.

Lemma match_at_spaces (text : string) (x : ascii) (t : string) (p : N) :
  match_at (compile "\s+") text (String x t) p
  = if is_space x
    then Some (MkMatch text (p + 1 + leading_spaces t)%N (skip_spaces t) [])
    else None.
Proof.
  rewrite compile_spaces. unfold match_at. cbn [rmatch]. rewrite set_space.
  destruct (is_space x); [| reflexivity].
  apply (repeat_spaces match_obj
                       (fun s1 p1 c1 => Some (MkMatch text p1 s1 c1)));
    [discriminate | apply Nat.le_refl].
Qed.

Lemma squeeze_after_run (s : string) :
  leading_spaces s = 0%N -> squeeze true s = squeeze false s.
Proof.
  destruct s as [| c t]; [reflexivity |]. cbn [leading_spaces squeeze].
  destruct (is_space c); [lia | reflexivity].
Qed.

(** [re.sub(r'\s+', ' ', s)] replaces every run of white space by a blank. *)
Lemma sub_spaces_squeeze (s : string) :
  sub (compile "\s+") " " s = squeeze false s.
Proof.
  unfold sub.
  enough (H : forall p,
             sub_from (compile "\s+") " " 0%N s p = squeeze false s /\
             sub_from (compile "\s+") " " (leading_spaces s) s p
             = squeeze true s) by apply (proj1 (H 0%N)).
  induction s as [| c t IH]; intros p; [split; reflexivity |].
  assert (H0 : sub_from (compile "\s+") " " 0%N (String c t) p
               = squeeze false (String c t)).
  { cbn [sub_from squeeze]. replace (0 <? 0)%N with false by reflexivity.
    rewrite match_at_spaces. destruct (is_space c).
    - cbn [m_end]. replace (p <? p + 1 + leading_spaces t)%N with true
        by (symmetry; apply N.ltb_lt; lia).
      replace (p + 1 + leading_spaces t - p - 1)%N with (leading_spaces t)
        by lia.
      rewrite (proj2 (IH (p + 1)%N)). reflexivity.
    - rewrite (proj1 (IH (p + 1)%N)). reflexivity. }
  split; [exact H0 |].
  cbn [leading_spaces]. destruct (is_space c) eqn:Hc.
  - cbn [sub_from squeeze]. rewrite Hc.
    replace (0 <? 1 + leading_spaces t)%N with true
      by (symmetry; apply N.ltb_lt; lia).
    replace (1 + leading_spaces t - 1)%N with (leading_spaces t) by lia.
    apply IH.
  - rewrite H0. symmetry. apply squeeze_after_run. simpl. now rewrite Hc.
Qed.

Ltac each_char c :=
  destruct c as [[|] [|] [|] [|] [|] [|] [|] [|]]; vm_compute; reflexivity.

Lemma space_to_lower (c : ascii) : is_space (to_lower c) = is_space c.
Proof. each_char c. Qed.

Lemma blank_to_lower (c : ascii) : Ascii.eqb (to_lower c) " " = Ascii.eqb c " ".
Proof. each_char c. Qed.

Lemma upper_to_lower (c : ascii) : is_upper (to_lower c) = false.
Proof. each_char c. Qed.

Lemma to_lower_fixed (c : ascii) : is_upper c = false -> to_lower c = c.
Proof. unfold to_lower. now intros ->. Qed.

Lemma single_blanks_squeeze (s : string) :
  single_blanks true (squeeze true s) = true /\
  single_blanks false (squeeze false s) = true.
Proof.
  induction s as [| c t [IH1 IH2]]; [split; reflexivity |].
  cbn [squeeze]. destruct (is_space c) eqn:Hc.
  - split; [exact IH1 |]. cbn [single_blanks]. now rewrite IH1.
  - cbn [single_blanks]. rewrite Hc. auto.
Qed.

Lemma single_blanks_lower (b : bool) (s : string) :
  single_blanks b (lower s) = single_blanks b s.
Proof.
  revert b. induction s as [| c t IH]; intros b; [reflexivity |].
  unfold lower in *. cbn [map_chars single_blanks].
  now rewrite space_to_lower, blank_to_lower, !IH.
Qed.

Lemma no_upper_lower (s : string) : no_upper (lower s) = true.
Proof.
  induction s as [| c t IH]; [reflexivity |].
  unfold no_upper, lower in *. cbn [map_chars all_chars].
  now rewrite upper_to_lower, IH.
Qed.

Lemma lower_fixed (s : string) : no_upper s = true -> lower s = s.
Proof.
  induction s as [| c t IH]; [reflexivity |].
  unfold no_upper, lower in *. cbn [map_chars all_chars].
  intros H. apply andb_prop in H. destruct H as [Hc Ht].
  apply negb_true_iff in Hc. now rewrite (to_lower_fixed c Hc), IH.
Qed.

Lemma squeeze_fixed (b : bool) (s : string) :
  single_blanks b s = true -> squeeze b s = s.
Proof.
  revert b. induction s as [| c t IH]; intros b; [reflexivity |].
  cbn [single_blanks squeeze]. destruct (is_space c).
  - intros H. apply andb_prop in H. destruct H as [H Ht].
    apply andb_prop in H. destruct H as [Hc Hb].
    apply Ascii.eqb_eq in Hc. apply negb_true_iff in Hb. subst.
    now rewrite (IH true Ht).
  - intros Ht. now rewrite (IH false Ht).
Qed.

Lemma prefix_one (a c : ascii) (t : string) :
  prefix (String a "") (String c t) = Ascii.eqb a c.
Proof.
  cbn [prefix]. destruct (ascii_dec a c) as [-> | Hne].
  - rewrite Ascii.eqb_refl. now destruct t.
  - symmetry. now apply Ascii.eqb_neq.
Qed.

Lemma newlines_fixed (b : bool) (s : string) :
  single_blanks b s = true -> replace (String newline "") " " s = s.
Proof.
  unfold replace. revert b. induction s as [| c t IH]; intros b; [reflexivity |].
  cbn [single_blanks replace_from]. rewrite prefix_one.
  destruct (Ascii.eqb newline c) eqn:Hn.
  - apply Ascii.eqb_eq in Hn. subst c. vm_compute. discriminate.
  - destruct (is_space c); intros H.
    + apply andb_prop in H. destruct H as [_ Ht]. now rewrite (IH true Ht).
    + now rewrite (IH false H).
Qed.

Lemma clean_text_normal (text : string) :
  single_blanks false (clean_text text) = true /\
  no_upper (clean_text text) = true.
Proof.
  unfold clean_text. rewrite sub_spaces_squeeze. split.
  - rewrite single_blanks_lower. apply single_blanks_squeeze.
  - apply no_upper_lower.
Qed.

(** A text in normal form is left as it is. *)
Lemma clean_text_fixed (s : string) :
  single_blanks false s = true -> no_upper s = true -> clean_text s = s.
Proof.
  intros Hb Hu. unfold clean_text.
  now rewrite sub_spaces_squeeze, (newlines_fixed _ _ Hb),
    (squeeze_fixed _ _ Hb), (lower_fixed _ Hu).
Qed.

Lemma clean_text_twice (text : string) :
  clean_text (clean_text text) = clean_text text.
Proof.
  destruct (clean_text_normal text) as [Hb Hu]. now apply clean_text_fixed.
Qed.

(** X1: the cleaned text has no upper-case letter, and its only white space
    is the single blank: no tab, newline or other space, no two blanks in a
    row. *)
Theorem X1_clean_text_normal_form (text : string) :
  single_blanks false (clean_text text) = true /\
  no_upper (clean_text text) = true.
Proof. exact (clean_text_normal text). Qed.

(** X2: cleaning is idempotent, and a text already in normal form is not
    changed by it. *)
Theorem X2_clean_text_idempotent (text : string) :
  clean_text (clean_text text) = clean_text text /\
  (single_blanks false text = true -> no_upper text = true ->
   clean_text text = text).
Proof. split; [apply clean_text_twice | apply clean_text_fixed]. Qed.

(** X3: letter case and the layout of white space do not matter to the
    extraction: the function gives the same result on a text and on its
    cleaned form. *)
Theorem X3_extraction_ignores_case_and_layout (text filename : string) :
  extract_lease_data_from_text (clean_text text) filename
  = extract_lease_data_from_text text filename.
Proof.
  unfold extract_lease_data_from_text. now rewrite clean_text_twice.
Qed.

(** ** Signs: what is read from digits is not negative *)

Lemma shr_1_nonneg (mrs : shr_record) :
  0 <= shr_m mrs -> 0 <= shr_m (shr_1 mrs).
Proof.
  destruct mrs as [m r s]. simpl.
  destruct m as [| [p | p |] | [p | p |]]; simpl; lia.
Qed.

Lemma iter_shr_1_nonneg (p : positive) (mrs : shr_record) :
  0 <= shr_m mrs -> 0 <= shr_m (iter_pos shr_1 p mrs).
Proof.
  revert mrs. induction p as [p IH | p IH |]; intros mrs H; simpl.
  - apply IH, IH, shr_1_nonneg, H.
  - apply IH, IH, H.
  - apply shr_1_nonneg, H.
Qed.

Lemma shr_fexp_nonneg (m e : Z) (l : SpecFloat.location) :
  0 <= m -> 0 <= shr_m (fst (shr_fexp prec emax m e l)).
Proof.
  intros H. unfold shr_fexp, shr.
  assert (H0 : 0 <= shr_m (shr_record_of_loc m l))
    by (destruct l as [| []]; exact H).
  destruct (_ - e); simpl; auto using iter_shr_1_nonneg.
Qed.

Lemma round_nearest_even_nonneg (m : Z) (l : SpecFloat.location) :
  0 <= m -> 0 <= round_nearest_even m l.
Proof.
  intros H. unfold round_nearest_even.
  destruct l as [| []]; try destruct (Z.even m); lia.
Qed.

Lemma binary_round_aux_non_negative (m e : Z) (l : SpecFloat.location) :
  0 <= m -> non_negative (binary_round_aux prec emax false m e l) = true.
Proof.
  intros H. unfold binary_round_aux.
  pose proof (shr_fexp_nonneg m e l H) as H1.
  destruct (shr_fexp prec emax m e l) as [mrs' e'].
  pose proof (shr_fexp_nonneg
                (round_nearest_even (shr_m mrs') (loc_of_shr_record mrs'))
                e' loc_Exact
                (round_nearest_even_nonneg _ _ H1)) as H2.
  destruct (shr_fexp prec emax _ e' loc_Exact) as [mrs'' e''].
  simpl in H2. destruct (shr_m mrs''); [reflexivity | | lia].
  now destruct (_ <=? _).
Qed.

Lemma div_core_nonneg (m1 e1 m2 e2 : Z) :
  0 <= m1 -> 0 < m2 ->
  0 <= fst (fst (SFdiv_core_binary prec emax m1 e1 m2 e2)).
Proof.
  intros H1 H2. unfold SFdiv_core_binary.
  set (s := _ - _ - _).
  set (m' := match s with Z.pos _ => Z.shiftl m1 s | 0 => m1 | Z.neg _ => 0 end).
  assert (Hm : 0 <= m')
    by (subst m'; destruct s; [exact H1 | now apply Z.shiftl_nonneg | lia]).
  pose proof (Z.div_pos m' m2 Hm H2) as Hq. unfold Z.div in Hq.
  destruct (Z.div_eucl m' m2) as [q r]. exact Hq.
Qed.

Lemma round_ratio_non_negative (n d : Z) :
  0 <= n -> 0 < d -> non_negative (round_ratio n d) = true.
Proof.
  intros Hn Hd. unfold round_ratio.
  destruct n as [| p | p]; [reflexivity | | lia].
  pose proof (div_core_nonneg (Z.pos p) 0 d 0 Hn Hd) as Hq.
  destruct (SFdiv_core_binary prec emax (Z.pos p) 0 d 0) as [[mz ez] lz].
  now apply binary_round_aux_non_negative.
Qed.

Lemma digit_val_range (c : ascii) : is_digit c = true -> 0 <= digit_val c <= 9.
Proof.
  unfold is_digit, between, digit_val. intros H.
  apply andb_prop in H. destruct H as [H1 H2].
  apply N.leb_le in H1, H2. lia.
Qed.

Lemma digits_value_nonneg (s : string) (acc : Z) :
  all_chars is_digit s = true -> 0 <= acc -> 0 <= digits_value acc s.
Proof.
  revert acc. induction s as [| c t IH]; intros acc;
    cbn [digits_value all_chars]; [auto |].
  intros H Hacc. apply andb_prop in H. destruct H as [Hc Ht].
  apply IH; [exact Ht |]. pose proof (digit_val_range c Hc). lia.
Qed.

Lemma isdigit_all (s : string) :
  isdigit s = true -> all_chars is_digit s = true.
Proof. destruct s; [discriminate | auto]. Qed.

Lemma all_chars_append (p : ascii -> bool) (a b : string) :
  all_chars p (a ++ b) = all_chars p a && all_chars p b.
Proof.
  induction a as [| c t IH]; simpl; [reflexivity |].
  now rewrite IH, andb_assoc.
Qed.

Lemma int_of_str_nonneg (s : string) (v : Z) :
  int_of_str s = Some v -> 0 <= v.
Proof.
  unfold int_of_str. destruct (isdigit s) eqn:H; [| discriminate].
  intros [= <-]. apply digits_value_nonneg; [now apply isdigit_all | lia].
Qed.

(** [float] of a captured literal is +0.0, positive or +infinity. *)
Lemma float_of_str_non_negative (s : string) (x : float) :
  float_of_str s = Some x -> non_negative x = true.
Proof.
  unfold float_of_str. destruct (split_dot s) as [ip [fp |]].
  - destruct (_ && _) eqn:H; [| discriminate]. intros [= <-].
    apply andb_prop in H. destruct H as [H _].
    apply andb_prop in H. destruct H as [Hi Hf].
    apply round_ratio_non_negative.
    + apply digits_value_nonneg; [| lia].
      now rewrite all_chars_append, Hi, Hf.
    + apply Z.pow_pos_nonneg; lia.
  - destruct (isdigit ip) eqn:H; [| discriminate]. intros [= <-].
    apply round_ratio_non_negative; [| lia].
    apply digits_value_nonneg; [now apply isdigit_all | lia].
Qed.

Lemma floats_of_non_negative (rates : list string) (xs : list float) :
  floats_of rates = Some xs -> Forall (fun x => non_negative x = true) xs.
Proof.
  revert xs. induction rates as [| r rest IH]; intros xs; simpl.
  - intros [= <-]. constructor.
  - destruct (float_of_str _) as [x |] eqn:Hx; [| discriminate].
    destruct (floats_of rest) as [ys |]; [| discriminate].
    intros [= <-]. constructor; [eapply float_of_str_non_negative; eauto |].
    now apply IH.
Qed.

Lemma max_float_in (x : float) (xs : list float) :
  In (max_float x xs) (x :: xs).
Proof.
  revert x. induction xs as [| y ys IH]; intros x; simpl; [auto |].
  destruct (flt x y); [right; apply IH |].
  destruct (IH x) as [H | H]; auto.
Qed.

Lemma acres_loop_non_negative (patterns : list regex) (tc : string)
      (a : float) :
  acres_loop patterns tc = Some a -> non_negative a = true.
Proof.
  induction patterns as [| p rest IH]; simpl; [discriminate |].
  destruct (search p tc) as [m |]; [| exact IH].
  destruct (float_of_str _) as [x |] eqn:Hx; [| exact IH].
  intros [= <-]. eapply float_of_str_non_negative; eauto.
Qed.

(** The integer part of a product of two such floats is not negative. *)
Lemma int_of_product_nonneg (x y : float) (c : Z) :
  non_negative x = true -> non_negative y = true ->
  int_of_float (fmul x y) = Ok c -> 0 <= c.
Proof.
  intros Hx Hy.
  assert (Hp : fmul x y = S754_nan \/ non_negative (fmul x y) = true).
  { destruct x as [[|] | [|] | | [|] mx ex]; try discriminate;
      destruct y as [[|] | [|] | | [|] my ey]; try discriminate;
        simpl; auto.
    right. unfold fmul. cbn [SFmul xorb].
    apply binary_round_aux_non_negative. lia. }
  destruct Hp as [-> | Hp]; [discriminate |].
  destruct (fmul x y) as [[|] | [|] | | [|] m e]; try discriminate.
  - intros [= <-]. lia.
  - simpl. intros [= <-]. destruct e as [| e | e].
    + simpl. lia.
    + apply Z.shiftl_nonneg. lia.
    + apply Z.shiftr_nonneg. lia.
Qed.

(** ** The rent and the acreage *)

Lemma extract_Ok_parts (text filename : string) (rec : lease_data) :
  extract_lease_data_from_text text filename = Ok rec ->
  per_acre_override (clean_text text)
                    (acres_loop acres_patterns (clean_text text))
                    (rent_loop rent_patterns (clean_text text))
  = Ok (annual_rent rec) /\
  term_years rec = resolve_term (term_candidates (clean_text text)) /\
  needs_review rec = review_flag (term_years rec) /\
  acres rec = acres_loop acres_patterns (clean_text text) /\
  location rec = resolve_location (clean_text text) /\
  developer rec = company_loop company_patterns (clean_text text) /\
  name rec = base_name filename /\
  risk_tier rec = "medium" /\ landowners rec = None.
Proof.
  unfold extract_lease_data_from_text. cbv zeta.
  destruct (per_acre_override _ _ _) as [rent' | e]; [| discriminate].
  intros [= <-]. simpl. auto 10.
Qed.

(** X4: the acreage of a returned record is never negative and never a
    NaN: it is +0.0, a positive number or +infinity. *)
Theorem X4_acres_not_negative (text filename : string) (rec : lease_data)
        (a : float) :
  extract_lease_data_from_text text filename = Ok rec ->
  acres rec = Some a ->
  non_negative a = true.
Proof.
  intros Hex Ha. apply extract_Ok_parts in Hex.
  destruct Hex as (_ & _ & _ & Hac & _). rewrite Hac in Ha.
  eapply acres_loop_non_negative; eauto.
Qed.

Lemma X4_witness :
  extract_lease_data_from_text override_text "lease.pdf" = Ok override_record /\
  acres override_record = Some (float_of_Z 640) /\
  non_negative (float_of_Z 640) = true.
Proof.
  assert (H : extract_lease_data_from_text override_text "lease.pdf"
              = Ok override_record) by (vm_compute; reflexivity).
  split; [exact H |]. split; [reflexivity |].
  exact (X4_acres_not_negative _ _ _ _ H eq_refl).
Defined.

(** X5: the rent of a returned record is never negative. *)
Theorem X5_rent_not_negative (text filename : string) (rec : lease_data)
        (r : Z) :
  extract_lease_data_from_text text filename = Ok rec ->
  annual_rent rec = Some r ->
  0 <= r.
Proof.
  intros Hex Hr. apply extract_Ok_parts in Hex. destruct Hex as (Hov & _).
  rewrite Hr in Hov. apply per_acre_override_Ok in Hov.
  destruct Hov as [Hkeep | (x & xs & y & c & Hfl & Hac & Hint & [= ->])].
  - symmetry in Hkeep. apply rent_loop_accepted in Hkeep.
    destruct Hkeep as [Hrange _]. lia.
  - apply floats_of_non_negative in Hfl.
    rewrite Forall_forall in Hfl.
    eapply int_of_product_nonneg; [| | exact Hint].
    + apply Hfl, max_float_in.
    + eapply acres_loop_non_negative; eauto.
Qed.

Lemma X5_witness :
  extract_lease_data_from_text override_text "lease.pdf" = Ok override_record /\
  annual_rent override_record = Some 9600 /\
  0 <= 9600.
Proof.
  assert (H : extract_lease_data_from_text override_text "lease.pdf"
              = Ok override_record) by (vm_compute; reflexivity).
  split; [exact H |]. split; [reflexivity |].
  exact (X5_rent_not_negative _ _ _ _ H eq_refl).
Defined.




Lemma per_acre_override_replaces (tc : string) (a x : float) (xs : list float)
      (rent : option Z) (c : Z) :
  floats_of (findall per_acre_pattern tc) = Some (x :: xs) ->
  float_truthy a = true ->
  int_of_float (fmul (max_float x xs) a) = Ok c ->
  rent = None \/ (exists r, rent = Some r /\ 3 * c < r) ->
  per_acre_override tc (Some a) rent = Ok (Some c).
Proof.
  intros Hfl Ha Hint Hfar. unfold per_acre_override.
  destruct (findall per_acre_pattern tc) as [| r0 rs] eqn:Hrates;
    [discriminate |].
  rewrite Ha, Hfl, Hint.
  replace (far_from rent c) with true; [reflexivity |].
  destruct Hfar as [-> | (r & -> & Hr)]; [reflexivity |].
  unfold far_from. replace (c * 3 <? r) with true; [reflexivity |].
  symmetry. apply Z.ltb_lt. lia.
Qed.

(** X7: when a per-acre value is computed (the rates are read, the acreage
    is not zero, and the product is finite), it becomes the rent if the rent
    loop accepted nothing, or accepted more than three times that value. *)
Theorem X7_per_acre_value_replaces (text filename : string)
        (a x : float) (xs : list float) (c : Z) :
  floats_of (findall per_acre_pattern (clean_text text)) = Some (x :: xs) ->
  acres_loop acres_patterns (clean_text text) = Some a ->
  float_truthy a = true ->
  int_of_float (fmul (max_float x xs) a) = Ok c ->
  rent_loop rent_patterns (clean_text text) = None \/
  (exists r, rent_loop rent_patterns (clean_text text) = Some r /\ 3 * c < r) ->
  exists rec,
    extract_lease_data_from_text text filename = Ok rec /\
    annual_rent rec = Some c.
Proof.
  intros Hfl Hac Ha Hint Hfar. unfold extract_lease_data_from_text. cbv zeta.
  rewrite Hac, (per_acre_override_replaces _ _ _ _ _ _ Hfl Ha Hint Hfar).
  eexists. split; reflexivity.
Qed.

Lemma X7_witness :
  exists rec,
    extract_lease_data_from_text override_text "lease.pdf" = Ok rec /\
    annual_rent rec = Some 9600.
Proof.
  apply (X7_per_acre_value_replaces override_text "lease.pdf"
           (float_of_Z 640) (float_of_Z 15) [] 9600);
    try (vm_compute; reflexivity).
  right. exists 50000. split; [vm_compute; reflexivity | lia].
Defined.


(** ** The term *)

Lemma words_get_in (key : string) (table : list (string * Z)) (v : Z) :
  words_get key table = Some v -> In v (map snd table).
Proof.
  induction table as [| [w x] rest IH]; simpl; [discriminate |].
  destruct (String.eqb key w); [intros [= ->]; now left | auto].
Qed.

Lemma number_words_range (key : string) (v : Z) :
  words_get key number_words = Some v -> 1 <= v <= 60.
Proof.
  intros H. apply words_get_in in H.
  assert (Hall : forallb (fun x => (1 <=? x) && (x <=? 60))
                         (map snd number_words) = true)
    by (vm_compute; reflexivity).
  rewrite forallb_forall in Hall. apply Hall in H.
  apply andb_prop in H. destruct H as [H1 H2].
  apply Z.leb_le in H1, H2. lia.
Qed.

Lemma years_of_nonneg (val : string) (v : Z) :
  years_of val = Some v -> 0 <= v.
Proof.
  unfold years_of. destruct (isdigit val) eqn:Hd.
  - intros [= <-]. apply digits_value_nonneg; [now apply isdigit_all | lia].
  - intros H. apply number_words_range in H. lia.
Qed.

(** The candidates collected by the term patterns are at least 1. *)
Lemma collect_terms_positive (patterns : list regex) (tc : string) (c : Z) :
  In c (collect_terms patterns tc) -> 1 <= c.
Proof.
  unfold collect_terms. intros H.
  apply in_flat_map in H. destruct H as (p & _ & H).
  apply in_flat_map in H. destruct H as (m & _ & H).
  unfold candidate_of_match in H.
  destruct (years_of (group m 1)) as [v |] eqn:Hv; [| destruct H].
  destruct (v =? 0) eqn:H0; [destruct H |].
  destruct H as [<- | []]. apply years_of_nonneg in Hv.
  apply Z.eqb_neq in H0. lia.
Qed.

(** What the renewal block leaves: the collected candidates, and after them
    the renewal total if the clause was found, which no candidate exceeds. *)
Lemma add_renewal_cases (tc : string) (collected : list Z) :
  (forall c, In c collected -> 1 <= c) ->
  add_renewal tc collected = collected \/
  exists total,
    add_renewal tc collected = (collected ++ [total])%list /\
    0 <= total /\ forall c, In c collected -> c <= total.
Proof.
  intros Hpos. unfold add_renewal.
  destruct (search renewal_pattern tc) as [m |]; [| now left].
  destruct (int_of_str (group m 1)) as [n |] eqn:Hn; [| now left].
  destruct (int_of_str (group m 2)) as [y |] eqn:Hy; [| now left].
  apply int_of_str_nonneg in Hn, Hy. right.
  destruct collected as [| c cs].
  - exists (y + n * y). split; [reflexivity |]. split; [nia | intros c []].
  - exists (max_int c cs + n * y). split; [reflexivity |].
    destruct (max_int_spec c cs) as [Hin Hge].
    specialize (Hpos _ Hin). split; [nia |].
    intros d Hd. specialize (Hge d Hd). nia.
Qed.

Lemma term_candidates_nonneg (tc : string) (c : Z) :
  In c (term_candidates tc) -> 0 <= c.
Proof.
  unfold term_candidates.
  destruct (add_renewal_cases tc (collect_terms term_patterns tc)
                              (collect_terms_positive term_patterns tc))
    as [-> | (total & -> & Ht & _)].
  - intros H. apply collect_terms_positive in H. lia.
  - intros H. apply in_app_or in H. destruct H as [H | [<- | []]].
    + apply collect_terms_positive in H. lia.
    + exact Ht.
Qed.

Lemma resolve_term_Some (candidates : list Z) (t : Z) :
  resolve_term candidates = Some t -> In t candidates /\ t <= 50.
Proof.
  unfold resolve_term. destruct candidates as [| c cs]; [discriminate |].
  destruct (filter reasonable (c :: cs)) as [| r rs] eqn:Hf.
  - cbv zeta. destruct (_ <=? 50) eqn:Hm; [| discriminate].
    intros [= <-]. apply Z.leb_le in Hm.
    split; [apply min_int_spec | exact Hm].
  - intros [= <-]. destruct (max_int_spec r rs) as [Hin _].
    rewrite <- Hf in Hin. apply filter_In in Hin. destruct Hin as [Hin Hr].
    apply reasonable_iff in Hr. split; [exact Hin | lia].
Qed.

Lemma resolve_term_None (candidates : list Z) :
  resolve_term candidates = None <-> forall c, In c candidates -> 50 < c.
Proof.
  unfold resolve_term. destruct candidates as [| c cs].
  - split; [intros _ d [] | reflexivity].
  - destruct (filter reasonable (c :: cs)) as [| r rs] eqn:Hf.
    + cbv zeta. destruct (min_int_spec c cs) as [Hin Hle].
      destruct (_ <=? 50) eqn:Hm.
      * apply Z.leb_le in Hm. split; [discriminate |].
        intros H. specialize (H _ Hin). lia.
      * apply Z.leb_gt in Hm. split; [| reflexivity].
        intros _ d Hd. specialize (Hle d Hd). lia.
    + split; [discriminate |]. intros H.
      assert (Hr : In r (filter reasonable (c :: cs)))
        by (rewrite Hf; now left).
      apply filter_In in Hr. destruct Hr as [Hr Hrange].
      apply reasonable_iff in Hrange. specialize (H r Hr). lia.
Qed.

(** X9: a term that is returned is one of the candidates and lies between
    0 and 50. *)
Theorem X9_term_bounds (text filename : string) (rec : lease_data) (t : Z) :
  extract_lease_data_from_text text filename = Ok rec ->
  term_years rec = Some t ->
  In t (term_candidates (clean_text text)) /\ 0 <= t <= 50.
Proof.
  intros Hex Ht. apply extract_Ok_parts in Hex.
  destruct Hex as (_ & Hterm & _). rewrite Hterm in Ht.
  apply resolve_term_Some in Ht. destruct Ht as [Hin H50].
  split; [exact Hin |]. apply term_candidates_nonneg in Hin. lia.
Qed.

Lemma X9_witness :
  extract_lease_data_from_text two_terms_text "lease" = Ok two_terms_record /\
  term_years two_terms_record = Some 25 /\
  In 25 (term_candidates (clean_text two_terms_text)) /\ 0 <= 25 <= 50.
Proof.
  assert (H : extract_lease_data_from_text two_terms_text "lease"
              = Ok two_terms_record) by (vm_compute; reflexivity).
  split; [exact H |]. split; [reflexivity |].
  exact (X9_term_bounds _ _ _ _ H eq_refl).
Defined.

(** X10: the term of a returned record is null exactly when every
    candidate, if there is any, exceeds 50. *)
Theorem X10_term_null (text filename : string) (rec : lease_data) :
  extract_lease_data_from_text text filename = Ok rec ->
  (term_years rec = None <->
   forall c, In c (term_candidates (clean_text text)) -> 50 < c).
Proof.
  intros Hex. apply extract_Ok_parts in Hex.
  destruct Hex as (_ & -> & _). apply resolve_term_None.
Qed.

Lemma X10_witness :
  extract_lease_data_from_text "period of 60 years, and for 99 years" "lease"
  = Ok (MkLease "Lease" None None zero "medium" None None None None false) /\
  (term_years (MkLease "Lease" None None zero "medium" None None None None false)
   = None <->
   forall c,
     In c (term_candidates (clean_text "period of 60 years, and for 99 years"))
     -> 50 < c).
Proof.
  assert (H : extract_lease_data_from_text
                "period of 60 years, and for 99 years" "lease"
              = Ok (MkLease "Lease" None None zero "medium"
                            None None None None false))
    by (vm_compute; reflexivity).
  split; [exact H |].
  exact (X10_term_null _ _ _ H).
Defined.

(** X11: [needs_review] is true exactly when the term is one of 1, ..., 9. *)
Theorem X11_review_flag (text filename : string) (rec : lease_data) :
  extract_lease_data_from_text text filename = Ok rec ->
  (needs_review rec = true <->
   exists t, term_years rec = Some t /\ 1 <= t <= 9).
Proof.
  intros Hex. pose proof (extract_Ok_parts _ _ _ Hex) as Hp.
  destruct Hp as (_ & Hterm & Hflag & _). rewrite Hflag, review_flag_true.
  split; intros (t & Ht & Hr); exists t; (split; [exact Ht |]).
  - rewrite Hterm in Ht. apply resolve_term_Some in Ht.
    destruct Ht as [Hin _]. apply term_candidates_nonneg in Hin. lia.
  - lia.
Qed.

Lemma X11_witness :
  extract_lease_data_from_text "for 5 years" "lease"
  = Ok (MkLease "Lease" None (Some 5) zero "medium" None None None None true) /\
  (needs_review
     (MkLease "Lease" None (Some 5) zero "medium" None None None None true)
   = true <->
   exists t,
     term_years
       (MkLease "Lease" None (Some 5) zero "medium" None None None None true)
     = Some t /\ 1 <= t <= 9).
Proof.
  assert (H : extract_lease_data_from_text "for 5 years" "lease"
              = Ok (MkLease "Lease" None (Some 5) zero "medium"
                            None None None None true))
    by (vm_compute; reflexivity).
  split; [exact H |].
  exact (X11_review_flag _ _ _ H).
Defined.



(** ** The location *)

(** A group of a found match whose body is a repeated set holds characters
    of the set, at least one. *)
Lemma group_of_set (r : regex) (text : string) (m : match_obj) (i : nat)
      (g : bool) (items : list cset_item) :
  search r text = Some m ->
  always_sets i r = true ->
  (forall body, In (i, body) (group_bodies r) -> body = RPlus g (RSet items)) ->
  exists c w, group m i = String c w /\
              all_chars (set_matches items) (String c w) = true.
Proof.
  intros Hs Hset Hbody. apply search_sound in Hs.
  destruct Hs as (Ht & a & Hat & Hca & Hm).
  pose proof (always_sets_sound _ _ _ i Hm Hset) as Hsome. simpl in Hsome.
  unfold group. destruct (lookup_span i (m_caps m)) as [[p q] |] eqn:Hl;
    [| congruence].
  destruct (capture_origin text _ _ _ i (p, q) Hm Hat Hl)
    as [Hold | (body & a' & b' & Hin & Hb & Hat' & Hsp)].
  - rewrite Hca in Hold. discriminate.
  - apply Hbody in Hin. subst body. injection Hsp as -> ->.
    apply matches_plus_inv in Hb. destruct Hb as (a1 & H1 & Hstar).
    apply matches_set_inv in H1. destruct H1 as (x & Hx & Hq & Hin).
    apply matches_star_set in Hstar. destruct Hstar as (w & Hw & Hp & Hall).
    destruct Hat' as (pre & Htext & Hpre).
    exists x, w. split; [| cbn [all_chars]; now rewrite Hin, Hall].
    rewrite Ht, Htext, Hx, Hw, Hp, Hq, Hpre.
    replace (N.to_nat (N.of_nat (String.length pre) + 1
                       + N.of_nat (String.length w)
                       - N.of_nat (String.length pre)))
      with (String.length (String x w)) by (simpl; lia).
    rewrite Nat2N.id.
    exact (substring_middle pre (String x w) (rest b')).
Qed.

Lemma set_letters (x : ascii) : set_matches [CRange "a" "z"] x = is_lower x.
Proof. unfold set_matches. simpl. apply orb_false_r. Qed.

Lemma is_letters_plus_eq (body : regex) :
  is_letters_plus body = true -> body = RPlus true (RSet [CRange "a" "z"]).
Proof.
  destruct body as [| | | | | | | | [|] [| | | | items | | | | | |] | |];
    try discriminate.
  destruct items as [| [| lo hi |] [|]]; try discriminate. simpl.
  intros H. apply andb_prop in H. destruct H as [H1 H2].
  apply Ascii.eqb_eq in H1, H2. now subst.
Qed.

(** What a word-capturing group holds: small letters, at least one. *)
Lemma captured_word (r : regex) (tc : string) (m : match_obj) (i : nat) :
  captures_word i r = true ->
  search r tc = Some m ->
  exists c w, group m i = String c w /\
              is_lower c = true /\ all_chars is_lower w = true.
Proof.
  unfold captures_word. intros H Hs.
  apply andb_prop in H. destruct H as [Hset Hall].
  rewrite forallb_forall in Hall.
  destruct (group_of_set r tc m i true [CRange "a" "z"] Hs Hset)
    as (c & w & Hg & Hc).
  - intros body Hin. specialize (Hall _ Hin). simpl in Hall.
    rewrite Nat.eqb_refl in Hall. now apply is_letters_plus_eq.
  - exists c, w. split; [exact Hg |]. cbn [all_chars] in Hc.
    apply andb_prop in Hc. destruct Hc as [Hc Hw].
    rewrite set_letters in Hc. split; [exact Hc |].
    clear - Hw. induction w as [| y w IH]; [reflexivity |].
    cbn [all_chars] in *. apply andb_prop in Hw. destruct Hw as [Hy Hw].
    rewrite set_letters in Hy. now rewrite Hy, IH.
Qed.

Lemma lower_letter_facts (c : ascii) :
  implb (is_lower c)
        (is_upper (to_upper c) && Ascii.eqb (to_lower c) c && is_cased c)
  = true.
Proof. each_char c. Qed.

Lemma title_after_letter (w : string) :
  all_chars is_lower w = true -> title_from true w = w.
Proof.
  induction w as [| c t IH]; [reflexivity |]. cbn [all_chars title_from].
  intros H. apply andb_prop in H. destruct H as [Hc Ht].
  pose proof (lower_letter_facts c) as Hf. rewrite Hc in Hf. simpl in Hf.
  apply andb_prop in Hf. destruct Hf as [Hf Hcased].
  apply andb_prop in Hf. destruct Hf as [_ Hlow].
  apply Ascii.eqb_eq in Hlow. now rewrite Hlow, Hcased, IH.
Qed.

(** The title of a word of small letters is the word capitalised. *)
Lemma title_of_word (c : ascii) (w : string) :
  is_lower c = true -> all_chars is_lower w = true ->
  title (String c w) = String (to_upper c) w /\
  capitalised (title (String c w)) = true.
Proof.
  intros Hc Hw. unfold title. cbn [title_from].
  pose proof (lower_letter_facts c) as Hf. rewrite Hc in Hf. simpl in Hf.
  apply andb_prop in Hf. destruct Hf as [Hf Hcased].
  apply andb_prop in Hf. destruct Hf as [Hup _].
  rewrite Hcased, (title_after_letter w Hw). split; [reflexivity |].
  simpl. now rewrite Hup, Hw.
Qed.

Lemma state_loop_word (patterns : list regex) (tc l : string) :
  forallb (captures_word 1) patterns = true ->
  state_loop patterns tc = Some l ->
  capitalised l = true /\ (2 < String.length l)%nat.
Proof.
  induction patterns as [| p rest IH]; simpl; [discriminate |].
  intros H. apply andb_prop in H. destruct H as [Hp Hrest].
  destruct (search p tc) as [m |] eqn:Hs; [| now apply IH].
  destruct (2 <? String.length (title (group m 1)))%nat eqn:Hlen;
    [| now apply IH].
  intros [= <-]. apply Nat.ltb_lt in Hlen. split; [| exact Hlen].
  destruct (captured_word p tc m 1 Hp Hs) as (c & w & -> & Hc & Hw).
  now apply title_of_word.
Qed.

Lemma combined_location_form (tc l : string) :
  combined_location tc = Some l ->
  exists county state,
    l = county ++ " County, " ++ state /\
    capitalised county = true /\ capitalised state = true /\
    (2 < String.length county)%nat /\ (2 < String.length state)%nat.
Proof.
  unfold combined_location.
  destruct (search combined_pattern tc) as [m |] eqn:Hs; [| discriminate].
  destruct (_ && _) eqn:Hlen; [| discriminate]. intros [= <-].
  apply andb_prop in Hlen. destruct Hlen as [H1 H2].
  apply Nat.ltb_lt in H1, H2.
  assert (Hw1 : captures_word 1 combined_pattern = true)
    by (vm_compute; reflexivity).
  assert (Hw2 : captures_word 2 combined_pattern = true)
    by (vm_compute; reflexivity).
  destruct (captured_word _ tc m 1 Hw1 Hs) as (c1 & w1 & Hg1 & Hc1 & Hl1).
  destruct (captured_word _ tc m 2 Hw2 Hs) as (c2 & w2 & Hg2 & Hc2 & Hl2).
  exists (title (group m 1)), (title (group m 2)).
  split; [reflexivity |]. rewrite Hg1, Hg2 in *.
  repeat split; try assumption; now apply title_of_word.
Qed.

(** X13: a location that is returned is either "<County> County, <State>",
    or one word; each of the words is a capital letter followed by small
    letters, and has more than 2 characters. *)
Theorem X13_location_form (text filename : string) (rec : lease_data)
        (l : string) :
  extract_lease_data_from_text text filename = Ok rec ->
  location rec = Some l ->
  (exists county state,
      l = county ++ " County, " ++ state /\
      capitalised county = true /\ capitalised state = true /\
      (2 < String.length county)%nat /\ (2 < String.length state)%nat) \/
  (capitalised l = true /\ (2 < String.length l)%nat).
Proof.
  intros Hex Hl. apply extract_Ok_parts in Hex.
  destruct Hex as (_ & _ & _ & _ & Hloc & _). rewrite Hloc in Hl.
  unfold resolve_location in Hl.
  destruct (combined_location (clean_text text)) as [l' |] eqn:Hc.
  - injection Hl as <-. left.
    now apply (combined_location_form (clean_text text)).
  - right. apply (state_loop_word state_patterns (clean_text text));
      [vm_compute; reflexivity | exact Hl].
Qed.

Lemma X13_witness :
  extract_lease_data_from_text "Smith County, Wyoming" "lease"
  = Ok (MkLease "Lease" None None zero "medium"
                (Some "Smith County, Wyoming") None None None false) /\
  ((exists county state,
       "Smith County, Wyoming" = county ++ " County, " ++ state /\
       capitalised county = true /\ capitalised state = true /\
       (2 < String.length county)%nat /\ (2 < String.length state)%nat) \/
   (capitalised "Smith County, Wyoming" = true /\
    (2 < String.length "Smith County, Wyoming")%nat)).
Proof.
  assert (H : extract_lease_data_from_text "Smith County, Wyoming" "lease"
              = Ok (MkLease "Lease" None None zero "medium"
                            (Some "Smith County, Wyoming") None None None false))
    by (vm_compute; reflexivity).
  split; [exact H |].
  exact (X13_location_form _ _ _ _ H eq_refl).
Defined.

(** ** The developer *)

Lemma space_facts (c : ascii) :
  Bool.eqb (is_space (to_upper c)) (is_space c)
  && implb (is_space c) (negb (is_cased c)) = true.
Proof. each_char c. Qed.

Lemma space_title_char (b : bool) (c : ascii) :
  is_space (if b then to_lower c else to_upper c) = is_space c.
Proof.
  destruct b; [apply space_to_lower |].
  pose proof (space_facts c) as H. apply andb_prop in H.
  destruct H as [H _]. now apply Bool.eqb_prop in H.
Qed.

Lemma rstrip_title (b : bool) (s : string) :
  rstrip (title_from b s) = title_from b (rstrip s).
Proof.
  revert b. induction s as [| c t IH]; intros b; [reflexivity |].
  cbn [title_from rstrip]. rewrite IH.
  destruct (rstrip t) as [| d t'].
  - cbn [title_from]. rewrite (space_title_char b c).
    now destruct (is_space c).
  - reflexivity.
Qed.

Lemma lstrip_title (s : string) :
  lstrip (title_from false s) = title_from false (lstrip s).
Proof.
  induction s as [| c t IH]; [reflexivity |].
  cbn [title_from lstrip]. rewrite (space_title_char false c).
  destruct (is_space c) eqn:Hc; [| reflexivity].
  pose proof (space_facts c) as H. apply andb_prop in H.
  destruct H as [_ H]. rewrite Hc in H. simpl in H.
  apply negb_true_iff in H. now rewrite H.
Qed.

Lemma strip_title (s : string) : strip (title s) = title (strip s).
Proof. unfold strip, title. now rewrite lstrip_title, rstrip_title. Qed.

Lemma lstrip_head (s : string) :
  match lstrip s with
  | String c _ => is_space c = false
  | EmptyString => True
  end.
Proof.
  induction s as [| c t IH]; [exact I |]. cbn [lstrip].
  destruct (is_space c) eqn:Hc; [exact IH | exact Hc].
Qed.

Lemma rstrip_twice (s : string) : rstrip (rstrip s) = rstrip s.
Proof.
  induction s as [| c t IH]; [reflexivity |]. cbn [rstrip].
  destruct (rstrip t) as [| d t'] eqn:Hr.
  - destruct (is_space c) eqn:Hc; [reflexivity |].
    cbn [rstrip]. now rewrite Hc.
  - cbn [rstrip]. cbn [rstrip] in IH. now rewrite IH.
Qed.

Lemma strip_twice (s : string) : strip (strip s) = strip s.
Proof.
  unfold strip. pose proof (lstrip_head s) as Hh.
  destruct (lstrip s) as [| c t]; [reflexivity |].
  assert (Hl : lstrip (rstrip (String c t)) = rstrip (String c t)).
  { cbn [rstrip]. destruct (rstrip t); rewrite ?Hh; cbn [lstrip];
      now rewrite Hh. }
  now rewrite Hl, rstrip_twice.
Qed.

Lemma company_loop_form (patterns : list regex) (tc d : string) :
  company_loop patterns tc = Some d ->
  (5 < String.length d)%nat /\ exists g, d = title (strip g).
Proof.
  induction patterns as [| p rest IH]; simpl; [discriminate |].
  destruct (search p tc) as [m |]; [| exact IH].
  destruct (5 <? _)%nat eqn:Hlen; [| exact IH].
  intros [= <-]. apply Nat.ltb_lt in Hlen. eauto.
Qed.

(** X14: a developer name that is returned has more than 5 characters and
    no white space at either end. *)
Theorem X14_developer_form (text filename : string) (rec : lease_data)
        (d : string) :
  extract_lease_data_from_text text filename = Ok rec ->
  developer rec = Some d ->
  (5 < String.length d)%nat /\ strip d = d.
Proof.
  intros Hex Hd. apply extract_Ok_parts in Hex.
  destruct Hex as (_ & _ & _ & _ & _ & Hdev & _). rewrite Hdev in Hd.
  apply company_loop_form in Hd. destruct Hd as (Hlen & g & ->).
  split; [exact Hlen |]. now rewrite strip_title, strip_twice.
Qed.

Lemma X14_witness :
  extract_lease_data_from_text "Lessee:  sunny solar partners llc" "lease"
  = Ok (MkLease "Lease" None None zero "medium" None None
                (Some "Sunny Solar Partners Llc") None false) /\
  (5 < String.length "Sunny Solar Partners Llc")%nat /\
  strip "Sunny Solar Partners Llc" = "Sunny Solar Partners Llc".
Proof.
  assert (H : extract_lease_data_from_text
                "Lessee:  sunny solar partners llc" "lease"
              = Ok (MkLease "Lease" None None zero "medium" None None
                            (Some "Sunny Solar Partners Llc") None false))
    by (vm_compute; reflexivity).
  split; [exact H |].
  exact (X14_developer_form _ _ _ _ H eq_refl).
Defined.

(** ** The name *)







(** ** [process_document] *)

Lemma lstrip_blank (s : string) :
  all_chars is_space (lstrip s) = all_chars is_space s.
Proof.
  induction s as [| c t IH]; [reflexivity |]. cbn [lstrip all_chars].
  destruct (is_space c) eqn:Hc; [exact IH |].
  cbn [all_chars]. now rewrite Hc.
Qed.

Lemma rstrip_blank (s : string) :
  rstrip s = "" <-> all_chars is_space s = true.
Proof.
  induction s as [| c t IH]; [split; reflexivity |].
  cbn [rstrip all_chars]. destruct (rstrip t) as [| d t'].
  - destruct (is_space c); simpl.
    + split; [intros _; now apply IH | reflexivity].
    + split; discriminate.
  - split; [discriminate |]. intros H. apply andb_prop in H.
    destruct H as [_ H]. apply IH in H. discriminate H.
Qed.

(** [s.strip()] is empty exactly when [s] is white space only. *)
Lemma strip_blank (s : string) :
  strip s = "" <-> all_chars is_space s = true.
Proof. unfold strip. now rewrite rstrip_blank, lstrip_blank. Qed.

Section ProcessDocumentProperties.

Variable J : Type.
Variable load_json : path -> option J.
Variable extract_text_from_pdf : path -> string.
Variable extract_text_from_docx : path -> string.


(** X17: on a PDF or Word file whose text has a character other than white
    space, the outcome is that of the extractor on the text and the stem of
    the file name: its record is returned also when the rent or the term is
    missing, which only adds the warning. *)
Theorem X17_document_of_text (file_path : path) (text : string)
        (lease : lease_data) :
  acquire_text extract_text_from_pdf extract_text_from_docx file_path
  = Some text ->
  all_chars is_space text = false ->
  extract_lease_data_from_text text (stem file_path) = Ok lease ->
  exists messages,
    process_document J load_json extract_text_from_pdf
                     extract_text_from_docx file_path
    = Ok (Some (Extracted J lease), messages) /\
    name lease = base_name (stem file_path) /\
    (messages = [MissingCriticalData] <->
     annual_rent lease = None \/ term_years lease = None) /\
    (messages = [] <->
     annual_rent lease <> None /\ term_years lease <> None).
Proof.
  intros Hacq Hblank Hex. unfold process_document.
  assert (Hext : String.eqb (lower (suffix file_path)) ".json" = false).
  { unfold acquire_text in Hacq. cbv zeta in Hacq.
    destruct (String.eqb_spec (lower (suffix file_path)) ".json") as [He |];
      [| reflexivity].
    rewrite He in Hacq. vm_compute in Hacq. discriminate Hacq. }
  rewrite Hext, Hacq.
  destruct (strip text) as [| c t] eqn:Hs;
    [apply strip_blank in Hs; congruence |].
  rewrite Hex. eexists. split; [reflexivity |].
  split; [apply (extract_Ok_parts _ _ _ Hex) |].
  destruct (annual_rent lease), (term_years lease); simpl;
    repeat split; try discriminate; try congruence; auto;
      try (intros [H | H]; discriminate H);
      try (intros [H1 H2]; congruence).
Qed.

End ProcessDocumentProperties.

Lemma X17_witness :
  exists messages,
    process_document unit (fun _ => None) (fun _ => "for 5 years")
                     (fun _ => "") (MkPath ".PDF" "north_ridge")
    = Ok (Some (Extracted unit
                  (MkLease "North Ridge" None (Some 5) zero "medium"
                           None None None None true)), messages) /\
    name (MkLease "North Ridge" None (Some 5) zero "medium"
                  None None None None true)
    = base_name (stem (MkPath ".PDF" "north_ridge")) /\
    (messages = [MissingCriticalData] <->
     annual_rent (MkLease "North Ridge" None (Some 5) zero "medium"
                          None None None None true) = None \/
     term_years (MkLease "North Ridge" None (Some 5) zero "medium"
                         None None None None true) = None) /\
    (messages = [] <->
     annual_rent (MkLease "North Ridge" None (Some 5) zero "medium"
                          None None None None true) <> None /\
     term_years (MkLease "North Ridge" None (Some 5) zero "medium"
                         None None None None true) <> None).
Proof.
  apply (X17_document_of_text unit (fun _ => None) (fun _ => "for 5 years")
           (fun _ => "") (MkPath ".PDF" "north_ridge") "for 5 years");
    vm_compute; reflexivity.
Defined.

(** ** The escalator *)

Lemma pct_in_range_finite (p : float) :
  fle half p = true -> fle p five = true ->
  exists m e, p = S754_finite false m e.
Proof.
  destruct p as [s | s | | [|] m e]; try discriminate; eauto.
  - destruct s; discriminate.
Qed.

Lemma escalator_loop_non_negative (patterns : list regex) (tc : string)
      (rate : float) :
  escalator_loop patterns tc = Some rate -> non_negative rate = true.
Proof.
  rewrite escalator_loop_find_first.
  destruct (find_first (pct_of_pattern tc) patterns) as [pct |] eqn:Hff;
    [| discriminate].
  intros [= <-]. destruct (find_first_Some _ _ _ Hff) as [p Hp].
  assert (Hy : pct_of_pattern tc p = Some pct)
    by (destruct Hp as (pre & post & _ & _ & Hy); exact Hy).
  destruct (pct_of_pattern_Some _ _ _ Hy) as (m & _ & _ & Hlo & Hhi).
  destruct (pct_in_range_finite pct Hlo Hhi) as (mp & ep & ->).
  unfold fdiv, hundred. cbn [SFdiv xorb].
  pose proof (div_core_nonneg (Z.pos mp) ep (Z.pos 7036874417766400) (-46)
                              ltac:(lia) ltac:(lia)) as Hq.
  destruct (SFdiv_core_binary prec emax (Z.pos mp) ep
                              (Z.pos 7036874417766400) (-46))
    as [[mz ez] lz].
  now apply binary_round_aux_non_negative.
Qed.

(** X18: the escalator of a returned record is never negative and never a
    NaN. *)
Theorem X18_escalator_not_negative (text filename : string)
        (rec : lease_data) :
  extract_lease_data_from_text text filename = Ok rec ->
  non_negative (escalator rec) = true.
Proof.
  intros Hex. apply extract_Ok_inv in Hex. cbv zeta in Hex.
  destruct Hex as (_ & _ & _ & _ & -> & _).
  destruct (escalator_loop escalator_patterns (clean_text text)) as [e |] eqn:He;
    [| reflexivity].
  eapply escalator_loop_non_negative; eauto.
Qed.

Lemma X18_witness :
  extract_lease_data_from_text escalator_text "lease" = Ok escalator_record /\
  non_negative (escalator escalator_record) = true.
Proof.
  assert (H : extract_lease_data_from_text escalator_text "lease"
              = Ok escalator_record) by (vm_compute; reflexivity).
  split; [exact H |].
  exact (X18_escalator_not_negative _ _ _ H).
Defined.
